(** * Variational Information Pursuit on MNIST: the training and
      evaluation driver [main_mnist.py]

    A shallow embedding of the driver's control flow: the constants of the
    reference configuration, the temperature schedule, the training-time
    sampling branches, the evaluation rollout with its query mask, and the
    metrics that are logged after the test loop.

    Float tensors are lists of rationals ([Q]), nested once per dimension.
    The networks (classifier, querier) and the library kernels that are not
    part of the driver are section variables: the development holds for
    every choice of them. Python exceptions are [None] in the [option]
    monad. *)

From Stdlib Require Import QArith Lia Lqa.
From Stdlib Require Import String.
From stdpp Require Import base tactics option list list_numbers.

Set Default Proof Using "Type".
Local Open Scope nat_scope.

(** ** Constants (main, "## Constants") *)

Definition QUERY_ALL : nat := 676. (* 26*26 *)
Definition PATCH_SIZE : nat := 3.
Definition THRESHOLD : Q := 85 # 100.

(** MNIST images are 1 x 28 x 28. *)
Definition MNIST_SIDE : nat := 28.

(** ** Tensors *)

Abbreviation Matrix := (list (list Q)).
(** One image: channels x height x width. *)
Abbreviation Image := (list (list (list Q))).
Abbreviation Batch := (list (list (list (list Q)))).

Definition Qltb (x y : Q) : bool := negb (Qle_bool y x).

(** [torch.zeros(n, p)] *)
Definition zeros (n p : nat) : list (list Q) := replicate n (replicate p 0%Q).

(** [torch.zeros_like] on a batch of images. *)
Definition zeros_like (x : Batch) : Batch :=
  map (map (map (map (fun _ => 0%Q)))) x.

(** [t.argmax()] of a one-dimensional tensor: the first position of a
    maximal entry; an empty reduction dimension is an error. *)
Fixpoint argmax_from (best_i : nat) (best : Q) (i : nat) (l : list Q) : nat :=
  match l with
  | [] => best_i
  | x :: l' =>
      if Qltb best x then argmax_from i x (S i) l'
      else argmax_from best_i best (S i) l'
  end.

Definition argmax (l : list Q) : option nat :=
  match l with
  | [] => None
  | x :: l' => Some (argmax_from 0 x 1 l')
  end.

(** [t.argmax(dim=1)] of a two-dimensional tensor. *)
Definition argmax_dim1 (m : list (list Q)) : option (list nat) := mapM argmax m.

(** Two one-dimensional index or value tensors are broadcast together when
    they have the same length or one of them has length one. *)
Definition broadcast2 {A B} (xs : list A) (ys : list B) : option (list (A * B)) :=
  if decide (length xs = length ys) then Some (zip xs ys)
  else match xs, ys with
       | [x], _ => Some (map (pair x) ys)
       | _, [y] => Some (map (fun x => (x, y)) xs)
       | _, _ => None
       end.

(** [m[n, j] = 1.0]; an index out of range raises. *)
Definition set_entry (m : list (list Q)) (nj : nat * nat) : option (list (list Q)) :=
  row ← m !! nj.1;
  if decide (nj.2 < length row) then Some (<[nj.1 := <[nj.2 := 1%Q]> row]> m)
  else None.

Fixpoint set_entries (m : list (list Q)) (ps : list (nat * nat)) : option (list (list Q)) :=
  match ps with
  | [] => Some m
  | p :: ps' => m' ← set_entry m p; set_entries m' ps'
  end.

(** [mask[np.arange(N), idx] = 1.0] *)
Definition index_put_ones (N : nat) (m : list (list Q)) (idx : list nat)
  : option (list (list Q)) :=
  ps ← broadcast2 (seq 0 N) idx;
  set_entries m ps.

(** Number of revealed patches in one row of a mask. *)
Definition count_ones (row : list Q) : nat :=
  length (filter (fun x => Qeq_bool x 1 = true) row).

(** ** The evaluation rollout (main, "# Query") *)

Record RolloutState := mkRollout {
  mask : list (list Q);
  test_inputs : Batch;
  logits : list (list (list Q));
  queries : list (list (list Q));
  (** the loop variable [label_logits]; unbound before the first step *)
  label_logits : option (list (list Q))
}.

Section Rollout.
(** The networks and the image update of [ops]. *)
Variable classifier : Batch -> list (list Q).
Variable querier : Batch -> list (list Q) -> list (list Q).
Variable update_masked_image :
  Batch -> Batch -> list (list Q) -> nat -> Batch.

Variable test_images : Batch.

(** [N, H, C, W = test_images.shape] *)
Definition batch_N : nat := length test_images.

Definition rollout_init : RolloutState :=
  {| mask := zeros batch_N QUERY_ALL;
     test_inputs := zeros_like test_images;
     logits := [];
     queries := [];
     label_logits := None |}.

(** One iteration of [for i in range(args.max_queries_test)]. *)
Definition eval_step (st : RolloutState) : option RolloutState :=
  let query_vec := querier (test_inputs st) (mask st) in
  let ll := classifier (test_inputs st) in
  idx ← argmax_dim1 query_vec;
  mask' ← index_put_ones batch_N (mask st) idx;
  let test_inputs' :=
    update_masked_image (test_inputs st) test_images query_vec PATCH_SIZE in
  Some {| mask := mask';
          test_inputs := test_inputs';
          logits := logits st ++ [ll];
          queries := queries st ++ [query_vec];
          label_logits := Some ll |}.

Fixpoint eval_loop (n : nat) (st : RolloutState) : option RolloutState :=
  match n with
  | 0 => Some st
  | S n' => st' ← eval_step st; eval_loop n' st'
  end.

(** The state before 0-based step [i] of the rollout. *)
Definition state_before (i : nat) : option RolloutState :=
  eval_loop i rollout_init.

End Rollout.

(** ** The stopping criterion [ops.compute_queries_needed] *)

Definition Qmaxb (x y : Q) : Q := if Qltb x y then y else x.

(** [t.amax()] of a one-dimensional tensor. *)
Definition amax (l : list Q) : Q :=
  match l with
  | [] => 0%Q
  | x :: l' => fold_left Qmaxb l' x
  end.

(** Modelled from the spec: the scan inside [ops.compute_queries_needed],
    which is missing from the sources. The first 1-based position,
    counted from [t], of an entry that exceeds [thr]. *)
Fixpoint first_exceeding (t : nat) (pm : list Q) (thr : Q) : option nat :=
  match pm with
  | [] => None
  | p :: pm' => if Qltb thr p then Some t else first_exceeding (S t) pm' thr
  end.

Section Stopping.
(** The normalized exponential over the class dimension. *)
Variable softmax : list Q -> list Q.

(** Modelled from the spec: the maximum class probability of one step,
    as [ops.compute_queries_needed] (missing from the sources) reads it. *)
Definition prob_max (step_logits : list Q) : Q := amax (softmax step_logits).

(** Modelled from the spec: the body of [ops.compute_queries_needed] for
    one sample is missing from the sources. The smallest 1-based step
    whose maximum class probability exceeds the threshold, and the last
    step when there is none. *)
Definition queries_needed_sample (steps : list (list Q)) (thr : Q) : nat :=
  default (length steps) (first_exceeding 1 (map prob_max steps) thr).

(** Modelled from the spec: [ops.compute_queries_needed] is missing from
    the sources. [logits] has shape samples x steps x classes; a
    threshold outside (0, 1] is fatal at call time; samples are reduced
    independently. *)
Definition compute_queries_needed (logits : list (list (list Q))) (thr : Q)
  : option (list nat) :=
  if Qltb 0 thr && Qle_bool thr 1
  then Some (map (fun steps => queries_needed_sample steps thr) logits)
  else None.
End Stopping.

(** ** Metrics of one test batch (main, lines after the rollout) *)

(** [torch.stack]: the list is non-empty and all tensors have one shape. *)
Definition torch_stack (ts : list (list (list Q))) : option (list (list (list Q))) :=
  match ts with
  | [] => None
  | t0 :: _ =>
      if forallb (fun t => bool_decide (map length t = map length t0)) ts
      then Some ts else None
  end.

(** [t.permute(1, 0, 2)] of a steps x samples x classes tensor. *)
Definition permute_102 (t : list (list (list Q))) : list (list (list Q)) :=
  match t with
  | [] => []
  | t0 :: _ => map (fun n => omap (fun m => m !! n) t) (seq 0 (length t0))
  end.

(** A tensor index: negative positions count from the end. *)
Definition wrap_index (len : nat) (j : Z) : option nat :=
  if decide (0 <= j < Z.of_nat len)%Z then Some (Z.to_nat j)
  else if decide (- Z.of_nat len <= j < 0)%Z then Some (Z.to_nat (Z.of_nat len + j))
  else None.

(** [logits[torch.arange(len(queries_needed)), queries_needed - 1]] *)
Definition index_rows (lg : list (list (list Q))) (qn : list nat)
  : option (list (list Q)) :=
  mapM (fun nq : nat * nat =>
          steps ← lg !! nq.1;
          j ← wrap_index (length steps) (Z.of_nat nq.2 - 1);
          steps !! j)
       (zip (seq 0 (length qn)) qn).

(** [(a == labels.squeeze()).float()] *)
Definition eq_float (a : list nat) (labels : list Z) : option (list Q) :=
  ps ← broadcast2 a labels;
  Some (map (fun p : nat * Z => if (Z.of_nat p.1 =? p.2)%Z then 1%Q else 0%Q) ps).

Definition sumQ (l : list Q) : Q := foldr Qplus 0%Q l.

(** [t.mean().item()] as an exact rational, where the program computes a
    float32 mean: the two agree up to rounding, on order, and exactly on
    the values 0 and 1 of a tensor of zeros and ones. The mean of an
    empty tensor is not a number and is zero here. *)
Definition mean (l : list Q) : Q := (sumQ l / inject_Z (Z.of_nat (length l)))%Q.

(** [t.float()] of a tensor of step counts. *)
Definition to_float (l : list nat) : list Q := map (fun n => inject_Z (Z.of_nat n)) l.

(** [(N / len(testset))] as an exact rational, where the program divides
    in binary64; division by zero raises. *)
Definition batch_weight (N len_testset : nat) : option Q :=
  if decide (len_testset = 0) then None
  else Some (inject_Z (Z.of_nat N) / inject_Z (Z.of_nat len_testset))%Q.

(** The variables bound by one iteration of the test loop. *)
Record BatchEnv := mkBatchEnv {
  env_N : nat;
  env_logits : list (list (list Q));
  env_queries_needed : list nat;
  env_test_pred_ip : list nat;
  acc_max : Q;
  acc_ip : Q;
  qry_need_avg : Q;
  qry_need_std : Q
}.

(** The record passed to [wandb.log] after the test loop. *)
Record LogEntry := mkLogEntry {
  test_epoch : nat;
  test_acc_max : Q;
  test_acc_ip : Q;
  log_qry_need_avg : Q;
  log_qry_need_std : Q
}.

Section Evaluation.
Variable classifier : Batch -> list (list Q).
Variable querier : Batch -> list (list Q) -> list (list Q).
Variable update_masked_image :
  Batch -> Batch -> list (list Q) -> nat -> Batch.
Variable softmax : list Q -> list Q.
(** [t.std().item()] *)
Variable std : list Q -> Q.

(** [args.max_queries_test] and [len(testset)] *)
Variable max_queries_test : nat.
Variable len_testset : nat.

(** Body of [for test_images, test_labels in tqdm(testloader)]. *)
Definition eval_batch (b : Batch * list Z) : option BatchEnv :=
  let test_images := b.1 in
  let test_labels := b.2 in
  let N := length test_images in
  st ← eval_loop classifier querier update_masked_image test_images
         max_queries_test (rollout_init test_images);
  ll ← label_logits st;
  pred_max ← argmax_dim1 ll;
  hits_max ← eq_float pred_max test_labels;
  w ← batch_weight N len_testset;
  let acc_max := (mean hits_max * w)%Q in
  stacked ← torch_stack (logits st);
  let lg := permute_102 stacked in
  queries_needed ← compute_queries_needed softmax lg THRESHOLD;
  rows ← index_rows lg queries_needed;
  test_pred_ip ← argmax_dim1 rows;
  hits_ip ← eq_float test_pred_ip test_labels;
  let acc_ip := (mean hits_ip * w)%Q in
  let qry_need_avg := (mean (to_float queries_needed) * w)%Q in
  let qry_need_std := (std (to_float queries_needed) * w)%Q in
  Some {| env_N := N;
          env_logits := lg;
          env_queries_needed := queries_needed;
          env_test_pred_ip := test_pred_ip;
          acc_max := acc_max;
          acc_ip := acc_ip;
          qry_need_avg := qry_need_avg;
          qry_need_std := qry_need_std |}.

(** The test loop: every iteration rebinds the same variables. [env] is
    what is bound on entry ([None]: nothing yet). *)
Fixpoint test_loop (env : option BatchEnv) (batches : list (Batch * list Z))
  : option (option BatchEnv) :=
  match batches with
  | [] => Some env
  | b :: batches' => e ← eval_batch b; test_loop (Some e) batches'
  end.

(** The test loop followed by [wandb.log]; reading an unbound variable
    raises. *)
Definition evaluation (epoch : nat) (env : option BatchEnv)
    (batches : list (Batch * list Z)) : option (LogEntry * BatchEnv) :=
  env' ← test_loop env batches;
  e ← env';
  Some ({| test_epoch := epoch;
           test_acc_max := acc_max e;
           test_acc_ip := acc_ip e;
           log_qry_need_avg := qry_need_avg e;
           log_qry_need_std := qry_need_std e |}, e).
End Evaluation.

(** [DataLoader(dataset, batch_size)]: consecutive batches, the last one
    possibly shorter. *)
Fixpoint chunks {A} (fuel batch_size : nat) (l : list A) : list (list A) :=
  match fuel with
  | 0 => []
  | S fuel' =>
      match l with
      | [] => []
      | _ => take batch_size l :: chunks fuel' batch_size (drop batch_size l)
      end
  end.

Definition DataLoader (dataset : list (Image * Z)) (batch_size : nat)
  : option (list (Batch * list Z)) :=
  if decide (batch_size = 0) then None
  else Some (map (fun c => (map fst c, map snd c))
                 (chunks (length dataset) batch_size dataset)).

(** The evaluation of one epoch as main runs it: the loader was built from
    [testset], and [len(testset)] weighs every batch. *)
Definition evaluate_testset
    (classifier : Batch -> list (list Q))
    (querier : Batch -> list (list Q) -> list (list Q))
    (update_masked_image : Batch -> Batch -> list (list Q) -> nat -> Batch)
    (softmax : list Q -> list Q) (std : list Q -> Q)
    (max_queries_test batch_size epoch : nat) (env : option BatchEnv)
    (testset : list (Image * Z)) : option (LogEntry * BatchEnv) :=
  testloader ← DataLoader testset batch_size;
  evaluation classifier querier update_masked_image softmax std
    max_queries_test (length testset) epoch env testloader.

(** ** The hit vectors of one test batch *)

Section BatchHits.
Variable classifier : Batch -> list (list Q).
Variable querier : Batch -> list (list Q) -> list (list Q).
Variable update_masked_image :
  Batch -> Batch -> list (list Q) -> nat -> Batch.
Variable softmax : list Q -> list Q.
Variable max_queries_test : nat.

(** [(label_logits.argmax(dim=1).float() == test_labels.squeeze()).float()],
    the tensor whose mean enters [acc_max]: 1 where the prediction of the
    last step is the label, 0 elsewhere. *)
Definition batch_hits_max (b : Batch * list Z) : option (list Q) :=
  st ← eval_loop classifier querier update_masked_image b.1
         max_queries_test (rollout_init b.1);
  ll ← label_logits st;
  pred_max ← argmax_dim1 ll;
  eq_float pred_max b.2.

(** [(test_pred_ip == test_labels.squeeze()).float()], the tensor whose
    mean enters [acc_ip]. *)
Definition batch_hits_ip (b : Batch * list Z) : option (list Q) :=
  st ← eval_loop classifier querier update_masked_image b.1
         max_queries_test (rollout_init b.1);
  stacked ← torch_stack (logits st);
  let lg := permute_102 stacked in
  queries_needed ← compute_queries_needed softmax lg THRESHOLD;
  rows ← index_rows lg queries_needed;
  test_pred_ip ← argmax_dim1 rows;
  eq_float test_pred_ip b.2.
End BatchHits.

(** The accuracy over all samples of all batches, from their hit vectors. *)
Definition global_accuracy (hits : list (list Q)) : Q := mean (concat hits).

(** ** The temperature schedule (main, "## Optimization" and "## Train") *)

Definition Qnat (n : nat) : Q := inject_Z (Z.of_nat n).

(** [np.linspace(start, stop, num)] in exact arithmetic, where numpy
    computes in binary64: the end points and the order of the entries are
    those of the program, the inner entries agree up to rounding. *)
Definition linspace (start stop : Q) (num : nat) : list Q :=
  let div := num - 1 in
  let delta := (stop - start)%Q in
  let y := map Qnat (seq 0 num) in
  let y :=
    if decide (0 < div) then
      let step := (delta / Qnat div)%Q in
      if Qeq_bool step 0 then map (fun v => v / Qnat div * delta)%Q y
      else map (fun v => v * step)%Q y
    else map (fun v => v * delta)%Q y in
  let y := map (fun v => v + start)%Q y in
  if decide (1 < num) then <[num - 1 := stop]> y else y.

(** The part of the querier module that the driver writes. *)
Record QuerierModule := mkQuerierModule { q_tau : Q }.

Definition update_tau (q : QuerierModule) (tau : Q) : QuerierModule :=
  {| q_tau := tau |}.

(** One querier forward pass of training, with the temperature it ran at. *)
Record TrainForward := mkTrainForward {
  fw_epoch : nat;
  fw_batch : nat;
  fw_tau : Q
}.

(** Body of [for images, labels in tqdm(trainloader)]: the temperature is
    written first, the sampling and the forward pass follow. *)
Definition train_batch (epoch : nat) (tau : Q) (q : QuerierModule) (batch : nat)
  : QuerierModule * TrainForward :=
  let q := update_tau q tau in
  (q, {| fw_epoch := epoch; fw_batch := batch; fw_tau := q_tau q |}).

Fixpoint train_batches (epoch : nat) (tau : Q) (q : QuerierModule)
    (batches : list nat) : QuerierModule * list TrainForward :=
  match batches with
  | [] => (q, [])
  | b :: batches' =>
      let '(q1, fw) := train_batch epoch tau q b in
      let '(q2, fws) := train_batches epoch tau q1 batches' in
      (q2, fw :: fws)
  end.

Fixpoint train_epochs (tau_vals : list Q) (n_batches : nat) (q : QuerierModule)
    (epochs : list nat) : option (QuerierModule * list TrainForward) :=
  match epochs with
  | [] => Some (q, [])
  | epoch :: epochs' =>
      tau ← tau_vals !! epoch;
      let '(q1, fws) := train_batches epoch tau q (seq 0 n_batches) in
      r ← train_epochs tau_vals n_batches q1 epochs';
      Some (r.1, fws ++ r.2)
  end.

(** [for epoch in range(args.epochs)] with [n_batches] training batches;
    the querier is built with [tau=args.tau_start]. *)
Definition train (tau_start tau_end : Q) (epochs n_batches : nat)
  : option (QuerierModule * list TrainForward) :=
  let tau_vals := linspace tau_start tau_end epochs in
  train_epochs tau_vals n_batches {| q_tau := tau_start |} (seq 0 epochs).

(** ** Training-time sampling (main, "# initial random sampling") *)

Section Sampling.
(** The random source: an entropy tape read from left to right. *)
Variable tape : nat -> nat.

Definition rand_below (b pos : nat) : nat * nat := (tape pos mod b, S pos).

Fixpoint randint_from (low span n pos : nat) : list nat * nat :=
  match n with
  | 0 => ([], pos)
  | S n' =>
      let '(r, pos1) := rand_below span pos in
      let '(rs, pos2) := randint_from low span n' pos1 in
      (low + r :: rs, pos2)
  end.

(** [torch.randint(low, high, size=(n,))]; an empty range raises. *)
Definition randint (low high n pos : nat) : option (list nat * nat) :=
  if decide (low < high) then Some (randint_from low (high - low) n pos)
  else None.

(** Modelled from the spec: the draw inside [ops.random_sampling], which
    is missing from the sources. [k] distinct elements of [pool], drawn
    without replacement. *)
Fixpoint draw_distinct (k : nat) (pool : list nat) (pos : nat) : list nat * nat :=
  match k with
  | 0 => ([], pos)
  | S k' =>
      match pool with
      | [] => ([], pos)
      | x0 :: _ =>
          let '(i, pos1) := rand_below (length pool) pos in
          let '(rest, pos2) := draw_distinct k' (delete i pool) pos1 in
          (default x0 (pool !! i) :: rest, pos2)
      end
  end.

Definition set_ones (row : list Q) (idxs : list nat) : list Q :=
  foldr (fun j r => <[j := 1%Q]> r) row idxs.

(** Modelled from the spec: one row of [ops.random_sampling], which is
    missing from the sources. A uniformly random subset of exactly
    [max_queries] distinct patches out of [P]; all ones when
    [max_queries >= P]. *)
Definition random_row (max_queries P pos : nat) : list Q * nat :=
  if decide (P <= max_queries) then (replicate P 1%Q, pos)
  else
    let '(idxs, pos1) := draw_distinct max_queries (seq 0 P) pos in
    (set_ones (replicate P 0%Q) idxs, pos1).

(** Modelled from the spec: [ops.random_sampling(max_queries, P,
    batch_size)] is missing from the sources. Every sample is drawn
    independently. *)
Fixpoint random_sampling (max_queries P batch_size pos : nat)
  : list (list Q) * nat :=
  match batch_size with
  | 0 => ([], pos)
  | S n' =>
      let '(row, pos1) := random_row max_queries P pos in
      let '(rows, pos2) := random_sampling max_queries P n' pos1 in
      (row :: rows, pos2)
  end.
End Sampling.

(** Modelled from the spec: the arg-max inside the inference-time
    selection, which is missing from the sources. The first position of a
    maximal score among the patches that are not yet in the mask row. *)
Fixpoint masked_argmax_from (best : option (nat * Q)) (i : nat)
    (scores maskrow : list Q) : option (nat * Q) :=
  match scores, maskrow with
  | s :: scores', m :: maskrow' =>
      if Qeq_bool m 1 then masked_argmax_from best (S i) scores' maskrow'
      else
        match best with
        | Some (_, b) =>
            if Qltb b s then masked_argmax_from (Some (i, s)) (S i) scores' maskrow'
            else masked_argmax_from best (S i) scores' maskrow'
        | None => masked_argmax_from (Some (i, s)) (S i) scores' maskrow'
        end
  | _, _ => best
  end.

(** Modelled from the spec: the inference-time selection of the querier
    output is missing from the sources. Patches already queried are
    excluded (their scores count as minus infinity); when every score is
    excluded the arg-max is position 0. *)
Definition select_infer (scores maskrow : list Q) : nat :=
  default 0 (fst <$> masked_argmax_from None 0 scores maskrow).

Section Adaptive.
Variable querier : Batch -> list (list Q) -> list (list Q).
(** Copy patch [j] of the true image into the partial image. *)
Variable reveal_patch : Image -> Image -> nat -> nat -> Image.
(** The fully unrevealed image. *)
Variable blank : Batch -> Batch.

(** Modelled from the spec: one step of [ops.adaptive_sampling]. Every
    sample whose budget is not yet reached reveals its selected patch;
    the others are held fixed. *)
Definition adaptive_step (images : Batch) (num_queries : list nat)
    (patch_size : nat) (st : list (list Q) * Batch) (t : nat)
  : list (list Q) * Batch :=
  let mask := st.1 in
  let partial := st.2 in
  let scores := querier partial mask in
  let active n := bool_decide (t < default 0 (num_queries !! n)) in
  let sel n := select_infer (default [] (scores !! n)) (default [] (mask !! n)) in
  (imap (fun n row => if active n then <[sel n := 1%Q]> row else row) mask,
   imap (fun n img =>
           if active n
           then reveal_patch img (default [] (images !! n)) (sel n) patch_size
           else img) partial).

(** Modelled from the spec: [ops.adaptive_sampling(images, num_queries,
    querier, patch_size, P)] is missing from the sources. Start from the
    empty mask and run [max(num_queries)] steps. *)
Definition adaptive_sampling (images : Batch) (num_queries : list nat)
    (patch_size P : nat) : list (list Q) * Batch :=
  foldl (adaptive_step images num_queries patch_size)
        (zeros (length images) P, blank images)
        (seq 0 (max_list num_queries)).

Variable tape : nat -> nat.
(** [ops.get_patch_mask] *)
Variable get_patch_mask : list (list Q) -> Batch -> nat -> Batch.

(** The two sampling branches of the training step; with any other
    value of [args.sampling] the mask is never bound. *)
Definition train_sampling (sampling : String.string) (max_queries : nat)
    (images : Batch) (pos : nat)
  : option ((list (list Q) * Batch) * list nat * nat) :=
  if String.eqb sampling "adaptive"%string then
    r ← randint tape 0 QUERY_ALL (length images) pos;
    Some (adaptive_sampling images r.1 PATCH_SIZE QUERY_ALL, r.1, r.2)
  else if String.eqb sampling "random"%string then
    let r := random_sampling tape max_queries QUERY_ALL (length images) pos in
    Some ((r.1, get_patch_mask r.1 images PATCH_SIZE), [], r.2)
  else None.
End Adaptive.

(** ** Patch geometry of the reference configuration *)

(** The patch count of a non-overlapping square tiling, as the data model
    of the specification words it. *)
Definition tiling_patches (height width patch_size : nat) : nat :=
  (height / patch_size) * (width / patch_size).

(** The number of positions of a [patch_size] window moved pixel by pixel. *)
Definition sliding_patches (height width patch_size : nat) : nat :=
  (height - patch_size + 1) * (width - patch_size + 1).

(** ** Predicates used in the statements *)

(** Entry [(n, p)] of a two-dimensional tensor. *)
Definition entry (m : list (list Q)) (n p : nat) : option Q :=
  row ← m !! n; row !! p.

(** [m'] has every one of [m], and differs from [m] only by ones. *)
Definition mask_grows (m m' : list (list Q)) : Prop :=
  (forall n p, entry m n p = Some 1%Q -> entry m' n p = Some 1%Q) /\
  (forall n p x, entry m' n p = Some x -> x = 1%Q \/ entry m n p = Some x).

(** The querier returns one row of [QUERY_ALL] scores per mask row. *)
Definition querier_shaped (querier : Batch -> list (list Q) -> list (list Q)) : Prop :=
  forall x m, length (querier x m) = length m /\
              Forall (fun row => length row = QUERY_ALL) (querier x m).

(** A mask of [N] rows of [P] entries. *)
Definition mask_shape (N P : nat) (m : list (list Q)) : Prop :=
  length m = N /\ Forall (fun row => length row = P) m.

(** No row of the mask has more than [t] revealed patches. *)
Definition revealed_at_most (t : nat) (m : list (list Q)) : Prop :=
  Forall (fun row => count_ones row <= t) m.

(** The classifier returns one row of logits per sample. *)
Definition classifier_shaped (classifier : Batch -> list (list Q)) : Prop :=
  forall x, length (classifier x) = length x.

(** The mean number of queries needed over all samples of all batches of
    a test set of [len_testset] samples. *)
Definition global_mean_queries (envs : list BatchEnv) (len_testset : nat) : Q :=
  (sumQ (concat (map (fun e => to_float (env_queries_needed e)) envs))
   / Qnat len_testset)%Q.

(** Point [i] of the linear interpolation from [a] to [b] over [n] points. *)
Definition interpolate (a b : Q) (n i : nat) : Q :=
  (a + Qnat i * ((b - a) / Qnat (n - 1)))%Q.

(** The epoch and batch of every training step, in program order. *)
Definition training_steps (epochs n_batches : nat) : list (nat * nat) :=
  flat_map (fun epoch => map (pair epoch) (seq 0 n_batches)) (seq 0 epochs).

(** After [t] steps every sample has revealed [min(t, budget)] patches. *)
Definition adaptive_invariant (N P : nat) (num_queries : list nat) (t : nat)
    (m : list (list Q)) : Prop :=
  mask_shape N P m /\
  forall n b, num_queries !! n = Some b ->
    exists row, m !! n = Some row /\ count_ones row = t `min` b.

(** ** The data transform (main, "## Data") *)

(** [transforms.ToTensor] on one 8-bit grey level. *)
Definition to_tensor (p : Z) : Q := (inject_Z p / 255)%Q.

(** [torch.where(x < 0.5, -1., 1.)] on one pixel. *)
Definition binarize (x : Q) : Q := if Qltb x (1 # 2) then (-1)%Q else 1%Q.

(** The composed transform on one grey level and on one image. *)
Definition transform (p : Z) : Q := binarize (to_tensor p).

Definition transform_image (img : list (list (list Z))) : Image :=
  map (map (map transform)) img.

(** ** Checkpoint and evaluation epochs (main, "# saving", "# evaluation") *)

(** [epoch % 10 == 0 or epoch == args.epochs - 1] *)
Definition is_eval_epoch (epochs epoch : nat) : bool :=
  (epoch mod 10 =? 0) || (Z.of_nat epoch =? Z.of_nat epochs - 1)%Z.

(** The epochs of [range(args.epochs)] that save and evaluate. *)
Definition eval_epochs (epochs : nat) : list nat :=
  filter (fun epoch => is_eval_epoch epochs epoch = true) (seq 0 epochs).

(** ** Predicates on recorded rollouts *)

(** Patch [p] is the arg-max of the query vector [qv] for sample [n]. *)
Definition selected (qv : list (list Q)) (n p : nat) : Prop :=
  exists row, qv !! n = Some row /\ argmax row = Some p.

(** Every entry of the matrix is 0 or 1. *)
Definition binary_mask (m : list (list Q)) : Prop :=
  Forall (Forall (fun v => v = 0%Q \/ v = 1%Q)) m.

(** The patches selected for sample [n] at different steps are pairwise
    different. *)
Definition distinct_selections (qs : list (list (list Q))) (n : nat) : Prop :=
  forall t1 t2 qv1 qv2 p,
    t1 < t2 -> qs !! t1 = Some qv1 -> qs !! t2 = Some qv2 ->
    selected qv1 n p -> ~ selected qv2 n p.

(** ** A small concrete run

    Two test batches of one 1 x 1 x 1 image each, a querier that scores
    every patch by one minus its mask entry, an image update that reveals
    the whole image, and a classifier that is undecided on the blank
    image and confident afterwards. *)

Definition is_blank (img : Image) : bool :=
  forallb (forallb (forallb (Qeq_bool 0))) img.

Definition demo_classifier (x : Batch) : list (list Q) :=
  map (fun img => if is_blank img then [5 # 10; 5 # 10]%Q else [1 # 10; 9 # 10]%Q) x.

Definition demo_querier (x : Batch) (m : list (list Q)) : list (list Q) :=
  map (fun row => map (fun j => (1 - default 0 (row !! j))%Q) (seq 0 QUERY_ALL)) m.

Definition demo_update (x full : Batch) (q : list (list Q)) (patch_size : nat)
  : Batch := full.

Definition demo_reveal (img full : Image) (j patch_size : nat) : Image := full.

Definition demo_softmax (l : list Q) : list Q := l.

Definition demo_std (l : list Q) : Q := 0%Q.

Definition demo_images : Batch := [[[[1%Q]]]].

Definition demo_batch : Batch * list Z := (demo_images, [1%Z]).

Definition demo_testset : list (Image * Z) :=
  [([[[1%Q]]], 1%Z); ([[[1%Q]]], 0%Z); ([[[1%Q]]], 1%Z)].

(** Four samples; the demo classifier misses the first two and hits the
    last two. *)
Definition demo_split_testset : list (Image * Z) :=
  [([[[1%Q]]], 0%Z); ([[[1%Q]]], 0%Z); ([[[1%Q]]], 1%Z); ([[[1%Q]]], 1%Z)].

(** A classifier that never gets confident: it leans to class 0 on the
    blank image and to class 1 afterwards, below the threshold both
    times. *)
Definition undecided_classifier (x : Batch) : list (list Q) :=
  map (fun img => if is_blank img then [6 # 10; 4 # 10]%Q else [3 # 10; 7 # 10]%Q) x.

Definition demo_tape (pos : nat) : nat := 3 + pos.

(** One sample, five steps, the class probabilities of every step. *)
Definition demo_logits : list (list (list Q)) :=
  [[[2 # 10; 1 # 10]; [4 # 10; 1 # 10]; [6 # 10; 1 # 10];
    [91 # 100; 9 # 100]; [95 # 100; 5 # 100]]]%Q.

(** A querier that scores patch 0 highest whatever the mask holds. *)
Definition stuck_querier (x : Batch) (m : list (list Q)) : list (list Q) :=
  map (fun _ => 1%Q :: replicate (QUERY_ALL - 1) 0%Q) m.

(** The image update keeps the batch size. *)
Definition update_shaped
    (update_masked_image : Batch -> Batch -> list (list Q) -> nat -> Batch) : Prop :=
  forall x full q patch_size,
    length x = length full ->
    length (update_masked_image x full q patch_size) = length full.

(** * Properties *)

Lemma Qltb_lt x y : Qltb x y = true <-> (x < y)%Q.
Proof.
  unfold Qltb. rewrite negb_true_iff. split.
  - intros H. apply Qnot_le_lt. intros Hle.
    apply Qle_bool_iff in Hle. congruence.
  - intros H. destruct (Qle_bool y x) eqn:E; [|done].
    apply Qle_bool_iff in E. exfalso. eapply Qlt_not_le; eauto.
Qed.

Lemma Qltb_ge x y : Qltb x y = false <-> (y <= x)%Q.
Proof.
  unfold Qltb. rewrite negb_false_iff. apply Qle_bool_iff.
Qed.

(** *** Arg-max and index assignment *)

Lemma argmax_from_bound l : forall bi b i,
  bi < i -> argmax_from bi b i l < i + length l.
Proof.
  induction l as [|x l IH]; intros bi b i Hbi; simpl; [lia|].
  destruct (Qltb b x).
  - specialize (IH i x (S i)). lia.
  - specialize (IH bi b (S i)). lia.
Qed.

Lemma argmax_bound l j : argmax l = Some j -> j < length l.
Proof.
  destruct l as [|x l]; simpl; [done|]. intros [= <-].
  pose proof (argmax_from_bound l 0 x 1). lia.
Qed.

Lemma argmax_is_Some l : l <> [] -> is_Some (argmax l).
Proof. destruct l; [done|]. intros _. simpl. eauto. Qed.

Lemma entry_insert_row (m : list (list Q)) n row j n' p :
  m !! n = Some row -> j < length row ->
  entry (<[n := <[j := 1%Q]> row]> m) n' p =
    if decide (n' = n /\ p = j) then Some 1%Q else entry m n' p.
Proof.
  intros Hrow Hj. unfold entry.
  destruct (decide (n' = n)) as [->|Hn].
  - rewrite list_lookup_insert_eq by (eapply lookup_lt_Some; eauto).
    rewrite Hrow. simpl.
    destruct (decide (p = j)) as [->|Hp].
    + rewrite list_lookup_insert_eq by done.
      rewrite decide_True; done.
    + rewrite list_lookup_insert_ne by done.
      rewrite decide_False; [done|]. intros [_ ?]. done.
  - rewrite list_lookup_insert_ne by done.
    rewrite decide_False; [done|]. intros [? _]. done.
Qed.

Lemma mask_grows_refl m : mask_grows m m.
Proof. split; eauto. Qed.

Lemma mask_grows_trans m1 m2 m3 :
  mask_grows m1 m2 -> mask_grows m2 m3 -> mask_grows m1 m3.
Proof.
  intros [H1 H2] [H3 H4]. split.
  - eauto.
  - intros n p x Hx. destruct (H4 _ _ _ Hx) as [->|Hx2]; eauto.
Qed.

Lemma set_entry_grows m nj m' : set_entry m nj = Some m' -> mask_grows m m'.
Proof.
  unfold set_entry. destruct nj as [n j]. simpl.
  destruct (m !! n) as [row|] eqn:Hrow; simpl; [|done].
  case_decide as Hj; [|done]. intros [= <-].
  split.
  - intros n' p H1. rewrite entry_insert_row by done.
    case_decide; done.
  - intros n' p x. rewrite entry_insert_row by done.
    case_decide; [intros [= <-]; by left | by right].
Qed.

Lemma set_entries_grows ps : forall m m',
  set_entries m ps = Some m' -> mask_grows m m'.
Proof.
  induction ps as [|p ps IH]; simpl; intros m m' H.
  - injection H as <-. apply mask_grows_refl.
  - destruct (set_entry m p) as [m1|] eqn:E; simpl in H; [|done].
    eapply mask_grows_trans; [eapply set_entry_grows|]; eauto.
Qed.

Lemma index_put_ones_grows N m idx m' :
  index_put_ones N m idx = Some m' -> mask_grows m m'.
Proof.
  unfold index_put_ones.
  destruct (broadcast2 (seq 0 N) idx) as [ps|]; simpl; [|done].
  apply set_entries_grows.
Qed.

Section RolloutFacts.
Variable classifier : Batch -> list (list Q).
Variable querier : Batch -> list (list Q) -> list (list Q).
Variable update_masked_image :
  Batch -> Batch -> list (list Q) -> nat -> Batch.
Variable test_images : Batch.

Local Abbreviation step := (eval_step classifier querier update_masked_image test_images).
Local Abbreviation loop := (eval_loop classifier querier update_masked_image test_images).
Local Abbreviation before := (state_before classifier querier update_masked_image test_images).
Local Abbreviation batch_N' := (batch_N test_images).

Lemma eval_step_grows st st' : step st = Some st' -> mask_grows (mask st) (mask st').
Proof.
  unfold eval_step. intros H.
  destruct (argmax_dim1 _) as [idx|]; simpl in H; [|done].
  destruct (index_put_ones _ _ _) as [m1|] eqn:E; simpl in H; [|done].
  injection H as <-. simpl. eapply index_put_ones_grows; eauto.
Qed.

Lemma eval_loop_add i k st :
  loop (i + k) st = loop i st ≫= loop k.
Proof.
  revert st. induction i as [|i IH]; intros st; simpl; [done|].
  destruct (step st) as [st1|]; simpl; [apply IH|done].
Qed.

Lemma eval_loop_S_r i st :
  loop (S i) st = loop i st ≫= step.
Proof.
  replace (S i) with (i + 1) by lia. rewrite eval_loop_add.
  destruct (loop i st) as [st1|]; simpl; [|done].
  destruct (step st1); done.
Qed.

Lemma eval_loop_grows k : forall st st',
  loop k st = Some st' -> mask_grows (mask st) (mask st').
Proof.
  induction k as [|k IH]; simpl; intros st st' H.
  - injection H as <-. apply mask_grows_refl.
  - destruct (step st) as [st1|] eqn:E; simpl in H; [|done].
    eapply mask_grows_trans; [eapply eval_step_grows|]; eauto.
Qed.

(** C3. In every evaluation rollout the query mask only grows: between
    the states before any two steps [i <= j] (in particular before and
    after one step), every entry that is 1 stays 1, and an entry that
    changed was set to 1. *)
Theorem mask_monotone i j st_i st_j :
  i <= j ->
  before i = Some st_i ->
  before j = Some st_j ->
  mask_grows (mask st_i) (mask st_j).
Proof.
  intros Hij Hi Hj. unfold state_before in *.
  replace j with (i + (j - i)) in Hj by lia.
  rewrite eval_loop_add, Hi in Hj. simpl in Hj.
  eapply eval_loop_grows; eauto.
Qed.

(** *** Every step is taken and recorded *)

Lemma eval_step_records st st' :
  step st = Some st' ->
  logits st' = logits st ++ [classifier (test_inputs st)] /\
  queries st' = queries st ++ [querier (test_inputs st) (mask st)] /\
  label_logits st' = Some (classifier (test_inputs st)) /\
  test_inputs st' =
    update_masked_image (test_inputs st) test_images
      (querier (test_inputs st) (mask st)) PATCH_SIZE.
Proof.
  unfold eval_step. intros H.
  destruct (argmax_dim1 _) as [idx|]; simpl in H; [|done].
  destruct (index_put_ones _ _ _) as [m1|]; simpl in H; [|done].
  injection H as <-. done.
Qed.

Lemma eval_loop_lengths k : forall st st',
  loop k st = Some st' ->
  length (logits st') = length (logits st) + k /\
  length (queries st') = length (queries st) + k.
Proof.
  induction k as [|k IH]; simpl; intros st st' H.
  - injection H as <-. lia.
  - destruct (step st) as [st1|] eqn:E; simpl in H; [|done].
    apply eval_step_records in E as (El & Eq & _).
    apply IH in H as [H1 H2]. rewrite El, Eq in *.
    rewrite !length_app in *. simpl in *. lia.
Qed.

Lemma eval_loop_prefix k : forall st st',
  loop k st = Some st' ->
  (exists l, logits st' = logits st ++ l) /\
  (exists l, queries st' = queries st ++ l).
Proof.
  induction k as [|k IH]; simpl; intros st st' H.
  - injection H as <-. split; exists []; by rewrite app_nil_r.
  - destruct (step st) as [st1|] eqn:E; simpl in H; [|done].
    apply eval_step_records in E as (El & Eq & _).
    apply IH in H as [[l1 H1] [l2 H2]]. rewrite El, Eq in *.
    split; eexists; rewrite <- app_assoc in *; eauto.
Qed.

Lemma eval_loop_split n t st st' :
  t <= n -> loop n st = Some st' ->
  exists st_t, loop t st = Some st_t /\ loop (n - t) st_t = Some st'.
Proof.
  intros Ht H. replace n with (t + (n - t)) in H by lia.
  rewrite eval_loop_add in H.
  destruct (loop t st) as [st_t|]; simpl in H; [|done]. eauto.
Qed.

Lemma rollout_step_recorded n st t :
  loop n (rollout_init test_images) = Some st -> t < n ->
  exists st_t,
    before t = Some st_t /\
    logits st !! t = Some (classifier (test_inputs st_t)) /\
    queries st !! t = Some (querier (test_inputs st_t) (mask st_t)).
Proof.
  intros H Ht.
  destruct (eval_loop_split n t _ _ ltac:(lia) H) as (st_t & Ht1 & Hrest).
  exists st_t. split; [done|].
  replace (n - t) with (S (n - t - 1)) in Hrest by lia. simpl in Hrest.
  destruct (step st_t) as [st1|] eqn:E; simpl in Hrest; [|done].
  apply eval_step_records in E as (El & Eq & _).
  apply eval_loop_lengths in Ht1 as [L1 L2]. simpl in L1, L2.
  apply eval_loop_prefix in Hrest as [[l1 H1] [l2 H2]].
  rewrite H1, H2, El, Eq.
  split.
  - rewrite lookup_app_l by (rewrite length_app; simpl; lia).
    rewrite lookup_app_r by lia. by rewrite L1, Nat.sub_diag.
  - rewrite lookup_app_l by (rewrite length_app; simpl; lia).
    rewrite lookup_app_r by lia. by rewrite L2, Nat.sub_diag.
Qed.

(** *** The rollout completes when the querier output is well shaped *)

Lemma mask_shape_zeros N P : mask_shape N P (zeros N P).
Proof.
  unfold zeros. split; [apply length_replicate|].
  apply Forall_replicate, length_replicate.
Qed.

Lemma set_entry_shape N P m nj m' :
  set_entry m nj = Some m' -> mask_shape N P m -> mask_shape N P m'.
Proof.
  unfold set_entry. destruct nj as [n j]. simpl.
  destruct (m !! n) as [row|] eqn:Hrow; simpl; [|done].
  case_decide as Hj; [|done]. intros [= <-] [HN HP].
  split; [by rewrite length_insert|].
  apply Forall_insert; [done|]. rewrite length_insert.
  eapply Forall_lookup_1 in HP; eauto.
Qed.

Lemma set_entries_shape N P ps : forall m m',
  set_entries m ps = Some m' -> mask_shape N P m -> mask_shape N P m'.
Proof.
  induction ps as [|p ps IH]; simpl; intros m m' H Hs.
  - by injection H as <-.
  - destruct (set_entry m p) as [m1|] eqn:E; simpl in H; [|done].
    eapply IH; eauto. eapply set_entry_shape; eauto.
Qed.

Lemma set_entries_is_Some N P ps : forall m,
  mask_shape N P m ->
  Forall (fun nj : nat * nat => nj.1 < N /\ nj.2 < P) ps ->
  is_Some (set_entries m ps).
Proof.
  induction ps as [|[n j] ps IH]; simpl; intros m Hs Hps; [eauto|].
  apply Forall_cons in Hps as [[Hn Hj] Hps]. simpl in *.
  assert (exists m1, set_entry m (n, j) = Some m1) as [m1 E].
  { unfold set_entry. simpl. destruct Hs as [HN HP].
    destruct (lookup_lt_is_Some_2 m n ltac:(lia)) as [row Hrow].
    rewrite Hrow. simpl. eapply Forall_lookup_1 in HP; eauto.
    rewrite decide_True by lia. eauto. }
  rewrite E. simpl. apply IH; [|done]. eapply set_entry_shape; eauto.
Qed.

Lemma argmax_dim1_shaped P (qv : list (list Q)) :
  0 < P -> Forall (fun row => length row = P) qv ->
  exists idx, argmax_dim1 qv = Some idx /\ length idx = length qv /\
              Forall (fun j => j < P) idx.
Proof.
  intros HP Hqv. unfold argmax_dim1.
  destruct (mapM argmax qv) as [idx|] eqn:E.
  - exists idx. split; [done|]. apply mapM_Some in E.
    split; [symmetry; eapply Forall2_length; eauto|].
    clear -E Hqv. induction E as [|row j qv idx Hj _ IH]; [constructor|].
    apply Forall_cons in Hqv as [Hrow Hqv]. constructor; [|by apply IH].
    apply argmax_bound in Hj. lia.
  - apply mapM_None in E. apply Exists_exists in E as (row & Hin & Hnone).
    rewrite Forall_forall in Hqv. specialize (Hqv _ Hin).
    destruct row; simpl in *; [lia|done].
Qed.

Lemma index_put_ones_shaped N P m idx :
  mask_shape N P m -> length idx = N -> Forall (fun j => j < P) idx ->
  exists m', index_put_ones N m idx = Some m' /\ mask_shape N P m'.
Proof.
  intros Hs Hlen Hidx. unfold index_put_ones, broadcast2.
  rewrite decide_True by (by rewrite length_seq). simpl.
  destruct (set_entries_is_Some N P (zip (seq 0 N) idx) m Hs) as [m' E].
  { apply Forall_forall. intros [n j] Hin. simpl.
    apply list_elem_of_lookup in Hin as [i Hi].
    apply lookup_zip_with_Some in Hi as (n0 & j0 & [= <- <-] & Hn & Hj).
    split.
    - apply lookup_seq in Hn. lia.
    - rewrite Forall_forall in Hidx. apply Hidx.
      apply list_elem_of_lookup. eauto. }
  exists m'. split; [done|]. eapply set_entries_shape; eauto.
Qed.

Lemma QUERY_ALL_pos : 0 < QUERY_ALL.
Proof. unfold QUERY_ALL. lia. Qed.

Lemma eval_step_shaped st :
  querier_shaped querier -> mask_shape batch_N' QUERY_ALL (mask st) ->
  exists st', step st = Some st' /\ mask_shape batch_N' QUERY_ALL (mask st').
Proof.
  intros Hq Hs. unfold eval_step.
  destruct (Hq (test_inputs st) (mask st)) as [Hlen Hrows].
  destruct (argmax_dim1_shaped QUERY_ALL _ QUERY_ALL_pos Hrows)
    as (idx & -> & Hidx & Hlt). simpl.
  destruct (index_put_ones_shaped batch_N' QUERY_ALL (mask st) idx Hs)
    as (m' & E & Hs'); [|done|].
  { rewrite Hidx, Hlen. apply Hs. }
  unfold batch_N in *. rewrite E. simpl. eauto.
Qed.

Lemma eval_loop_shaped k : forall st,
  querier_shaped querier -> mask_shape batch_N' QUERY_ALL (mask st) ->
  exists st', loop k st = Some st' /\ mask_shape batch_N' QUERY_ALL (mask st').
Proof.
  induction k as [|k IH]; simpl; intros st Hq Hs; [eauto|].
  destruct (eval_step_shaped st Hq Hs) as (st1 & -> & Hs1). simpl.
  by apply IH.
Qed.

(** C8. Every evaluation rollout takes exactly [max_queries_test] steps:
    a completed rollout has recorded exactly that many logits and query
    vectors, each step [t] having called the querier and the classifier on
    the state reached after [t] steps; and, whatever the classifier
    answers and whatever the mask holds, the rollout completes as soon as
    the querier returns one row of [QUERY_ALL] scores per sample. *)
Theorem rollout_runs_all_steps (max_queries_test : nat) :
  (forall st, loop max_queries_test (rollout_init test_images) = Some st ->
     length (logits st) = max_queries_test /\
     length (queries st) = max_queries_test /\
     forall t, t < max_queries_test ->
       exists st_t, before t = Some st_t /\
         logits st !! t = Some (classifier (test_inputs st_t)) /\
         queries st !! t = Some (querier (test_inputs st_t) (mask st_t))) /\
  (querier_shaped querier ->
     is_Some (loop max_queries_test (rollout_init test_images))).
Proof.
  split.
  - intros st H. pose proof (eval_loop_lengths _ _ _ H) as [L1 L2].
    simpl in L1, L2. repeat split; [done..|].
    intros t Ht. eapply rollout_step_recorded; eauto.
  - intros Hq.
    destruct (eval_loop_shaped max_queries_test (rollout_init test_images) Hq)
      as (st & E & _); [apply mask_shape_zeros|].
    rewrite E. eauto.
Qed.

(** *** At most one patch per sample and step *)

Lemma count_ones_cons x row :
  count_ones (x :: row) =
    (if Qeq_bool x 1 then 1 else 0) + count_ones row.
Proof.
  unfold count_ones. rewrite filter_cons.
  destruct (decide (Qeq_bool x 1 = true)) as [->|Hn]; [done|].
  apply not_true_is_false in Hn. by rewrite Hn.
Qed.

Lemma count_ones_replicate_zero P : count_ones (replicate P 0%Q) = 0.
Proof.
  induction P as [|P IH]; [done|]. simpl replicate.
  rewrite count_ones_cons, IH. done.
Qed.

Lemma count_ones_insert_le j : forall row,
  count_ones (<[j := 1%Q]> row) <= S (count_ones row).
Proof.
  induction j as [|j IH]; intros [|x row]; simpl; try lia.
  - rewrite !count_ones_cons. destruct (Qeq_bool x 1); simpl; lia.
  - rewrite !count_ones_cons. specialize (IH row). lia.
Qed.

Lemma set_entry_count m nj m' n' r' :
  set_entry m nj = Some m' -> m' !! n' = Some r' ->
  exists r, m !! n' = Some r /\ (n' <> nj.1 -> r' = r) /\
            count_ones r' <= S (count_ones r).
Proof.
  unfold set_entry. destruct nj as [n j]. simpl.
  destruct (m !! n) as [row|] eqn:Hrow; simpl; [|done].
  case_decide as Hj; [|done]. intros [= <-] Hr'.
  destruct (decide (n' = n)) as [->|Hn].
  - rewrite list_lookup_insert_eq in Hr' by (eapply lookup_lt_Some; eauto).
    injection Hr' as <-. exists row. split; [done|].
    split; [done|]. apply count_ones_insert_le.
  - rewrite list_lookup_insert_ne in Hr' by done.
    exists r'. split; [done|]. split; [done|]. lia.
Qed.

Lemma set_entries_count ps : forall m m' n' r',
  NoDup ps.*1 ->
  set_entries m ps = Some m' -> m' !! n' = Some r' ->
  exists r, m !! n' = Some r /\ (n' ∉ ps.*1 -> r' = r) /\
            count_ones r' <= S (count_ones r).
Proof.
  induction ps as [|p ps IH]; simpl; intros m m' n' r' Hnd H Hr'.
  - injection H as <-. exists r'. split; [done|]. split; [done|]. lia.
  - destruct (set_entry m p) as [m1|] eqn:E; simpl in H; [|done].
    apply NoDup_cons in Hnd as [Hp Hnd].
    destruct (IH _ _ _ _ Hnd H Hr') as (r1 & Hr1 & Hsame1 & Hc1).
    destruct (set_entry_count _ _ _ _ _ E Hr1) as (r & Hr & Hsame & Hc).
    exists r. split; [done|].
    split.
    + intros Hnot. apply not_elem_of_cons in Hnot as [Hne Hnot].
      rewrite Hsame1, Hsame; done.
    + destruct (decide (n' = p.1)) as [->|Hne].
      * rewrite Hsame1; done.
      * rewrite <- Hsame; done.
Qed.

Lemma eval_step_shape_pres st st' :
  step st = Some st' -> mask_shape batch_N' QUERY_ALL (mask st) ->
  mask_shape batch_N' QUERY_ALL (mask st').
Proof.
  unfold eval_step. intros H Hs.
  destruct (argmax_dim1 _) as [idx|]; simpl in H; [|done].
  destruct (index_put_ones _ _ _) as [m1|] eqn:E; simpl in H; [|done].
  injection H as <-. simpl. unfold index_put_ones in E.
  destruct (broadcast2 _ _) as [ps|]; simpl in E; [|done].
  eapply set_entries_shape; eauto.
Qed.

Lemma eval_step_count st st' t :
  (forall x m, length (querier x m) = length m) ->
  mask_shape batch_N' QUERY_ALL (mask st) ->
  step st = Some st' ->
  revealed_at_most t (mask st) -> revealed_at_most (S t) (mask st').
Proof.
  intros Hq Hs H Hc. unfold eval_step in H.
  destruct (argmax_dim1 _) as [idx|] eqn:Ei; simpl in H; [|done].
  destruct (index_put_ones _ _ _) as [m1|] eqn:E; simpl in H; [|done].
  injection H as <-. simpl.
  assert (length idx = batch_N') as Hidx.
  { apply mapM_Some, Forall2_length in Ei. rewrite <- Ei, Hq. apply Hs. }
  unfold index_put_ones, broadcast2 in E.
  rewrite decide_True in E by (by rewrite length_seq). simpl in E.
  apply Forall_forall. intros r' Hin.
  apply list_elem_of_lookup in Hin as [n' Hr'].
  assert (NoDup (zip (seq 0 batch_N') idx).*1) as Hnd.
  { rewrite fst_zip by (rewrite length_seq; lia). apply NoDup_seq. }
  destruct (set_entries_count _ _ _ _ _ Hnd E Hr') as (r & Hr & _ & Hle).
  unfold revealed_at_most in Hc.
  pose proof (Forall_lookup_1 _ _ _ _ Hc Hr) as Hc'. simpl in Hc'. lia.
Qed.

Lemma rollout_invariant t st_t :
  before t = Some st_t -> mask_shape batch_N' QUERY_ALL (mask st_t).
Proof.
  revert st_t. unfold state_before.
  induction t as [|t IH]; intros st_t H.
  - injection H as <-. apply mask_shape_zeros.
  - rewrite eval_loop_S_r in H.
    destruct (loop t _) as [st1|]; simpl in H; [|done].
    eapply eval_step_shape_pres; eauto.
Qed.

Lemma rollout_count t st_t :
  (forall x m, length (querier x m) = length m) ->
  before t = Some st_t -> revealed_at_most t (mask st_t).
Proof.
  intros Hq. revert st_t. induction t as [|t IH]; intros st_t H.
  - injection H as <-. simpl. unfold revealed_at_most, zeros.
    apply Forall_replicate. by rewrite count_ones_replicate_zero.
  - unfold state_before in *. rewrite eval_loop_S_r in H.
    destruct (loop t _) as [st1|] eqn:E1; simpl in H; [|done].
    eapply eval_step_count; eauto. apply (rollout_invariant t). done.
Qed.

Lemma state_before_inputs t st_t :
  before t = Some st_t ->
  match t with
  | 0 => test_inputs st_t = zeros_like test_images
  | S t' =>
      exists st_p, before t' = Some st_p /\
        test_inputs st_t =
          update_masked_image (test_inputs st_p) test_images
            (querier (test_inputs st_p) (mask st_p)) PATCH_SIZE
  end.
Proof.
  destruct t as [|t']; unfold state_before.
  - by intros [= <-].
  - rewrite eval_loop_S_r. intros H.
    destruct (loop t' _) as [st_p|]; simpl in H; [|done].
    exists st_p. split; [done|].
    by apply eval_step_records in H as (_ & _ & _ & ->).
Qed.

(** C10. The logits of every step are taken before that step's patch is
    revealed: in a completed rollout the logits recorded at 0-based
    position [t] (1-based step [t + 1]) are the classifier's answer on the
    inputs reached after [t] updates, which are the all-zero image for
    [t = 0] and one [update_masked_image] of the previous inputs
    otherwise, when no sample has more than [t] revealed patches; the
    first ones come from the all-zero image, and the [label_logits] that
    [acc_max] reads after the loop come from the inputs reached after
    [max_queries_test - 1] updates. *)
Theorem logits_precede_reveal (max_queries_test : nat) st :
  (forall x m, length (querier x m) = length m) ->
  loop max_queries_test (rollout_init test_images) = Some st ->
  (forall t, t < max_queries_test ->
     exists st_t, before t = Some st_t /\
       logits st !! t = Some (classifier (test_inputs st_t)) /\
       revealed_at_most t (mask st_t) /\
       match t with
       | 0 => test_inputs st_t = zeros_like test_images
       | S t' =>
           exists st_p, before t' = Some st_p /\
             test_inputs st_t =
               update_masked_image (test_inputs st_p) test_images
                 (querier (test_inputs st_p) (mask st_p)) PATCH_SIZE
       end) /\
  (0 < max_queries_test ->
     logits st !! 0 = Some (classifier (zeros_like test_images)) /\
     exists st_l, before (max_queries_test - 1) = Some st_l /\
       label_logits st = Some (classifier (test_inputs st_l)) /\
       revealed_at_most (max_queries_test - 1) (mask st_l)).
Proof.
  intros Hq H. split.
  - intros t Ht.
    destruct (rollout_step_recorded _ _ t H Ht) as (st_t & Hb & Hl & _).
    exists st_t. repeat split; [done..| |].
    + by apply rollout_count.
    + by apply state_before_inputs.
  - intros Hpos. split.
    + destruct (rollout_step_recorded _ _ 0 H Hpos) as (st0 & Hb & Hl & _).
      injection Hb as <-. done.
    + destruct (eval_loop_split max_queries_test (max_queries_test - 1) _ _
                  ltac:(lia) H)
        as (st_l & Hl & Hrest).
      exists st_l. split; [done|].
      replace (max_queries_test - (max_queries_test - 1)) with 1 in Hrest by lia.
      simpl in Hrest. destruct (step st_l) as [st1|] eqn:E; simpl in Hrest; [|done].
      injection Hrest as <-. apply eval_step_records in E as (_ & _ & Ell & _).
      split; [done|]. by apply rollout_count.
Qed.

End RolloutFacts.

(** *** The stopping criterion *)

Lemma first_exceeding_spec thr pm : forall t0,
  match first_exceeding t0 pm thr with
  | Some t =>
      t0 <= t < t0 + length pm /\
      (exists p, pm !! (t - t0) = Some p /\ (thr < p)%Q) /\
      (forall i p, i < t - t0 -> pm !! i = Some p -> ~ (thr < p)%Q)
  | None => forall i p, pm !! i = Some p -> ~ (thr < p)%Q
  end.
Proof.
  induction pm as [|p pm IH]; intros t0; simpl.
  - intros i p. by rewrite lookup_nil.
  - destruct (Qltb thr p) eqn:E.
    + apply Qltb_lt in E. split; [lia|]. rewrite Nat.sub_diag. split.
      * exists p. done.
      * intros i p' Hi. lia.
    + apply Qltb_ge in E. specialize (IH (S t0)).
      destruct (first_exceeding (S t0) pm thr) as [t|].
      * destruct IH as (Ht & (p' & Hp' & Hlt) & Hmin). split; [lia|]. split.
        -- exists p'. split; [|done].
           replace (t - t0) with (S (t - S t0)) by lia. done.
        -- intros i q Hi Hq. destruct i as [|i]; simpl in Hq.
           ++ injection Hq as <-. by apply Qle_not_lt.
           ++ eapply Hmin; [|done]. lia.
      * intros i q Hq. destruct i as [|i]; simpl in Hq.
        -- injection Hq as <-. by apply Qle_not_lt.
        -- eauto.
Qed.

Lemma Qltb_proper x x' y y' : (x == x')%Q -> (y == y')%Q -> Qltb x y = Qltb x' y'.
Proof.
  intros Hx Hy. destruct (Qltb x' y') eqn:E.
  - apply Qltb_lt. apply Qltb_lt in E. by rewrite Hx, Hy.
  - apply Qltb_ge. apply Qltb_ge in E. by rewrite Hx, Hy.
Qed.

Lemma first_exceeding_proper thr pm pm' :
  Forall2 Qeq pm pm' ->
  forall t0, first_exceeding t0 pm thr = first_exceeding t0 pm' thr.
Proof.
  induction 1 as [|p p' pm pm' Hp _ IH]; intros t0; simpl; [done|].
  rewrite (Qltb_proper thr thr p p') by done. by rewrite IH.
Qed.

Section StoppingFacts.
Variable softmax : list Q -> list Q.

Local Abbreviation needed := (queries_needed_sample softmax).
Local Abbreviation pmax := (prob_max softmax).

Lemma threshold_valid thr :
  (0 < thr)%Q -> (thr <= 1)%Q -> Qltb 0 thr && Qle_bool thr 1 = true.
Proof.
  intros H0 H1. apply andb_true_iff. split.
  - by apply Qltb_lt.
  - by apply Qle_bool_iff.
Qed.

Lemma queries_needed_sample_spec steps thr :
  let q := needed steps thr in
  (1 <= q <= length steps /\
   (exists l, steps !! (q - 1) = Some l /\ (thr < pmax l)%Q) /\
   (forall s l, s < q - 1 -> steps !! s = Some l -> ~ (thr < pmax l)%Q)) \/
  (q = length steps /\
   forall s l, steps !! s = Some l -> ~ (thr < pmax l)%Q).
Proof.
  unfold queries_needed_sample.
  pose proof (first_exceeding_spec thr (map pmax steps) 1) as H.
  destruct (first_exceeding 1 (map pmax steps) thr) as [t|]; simpl.
  - left. destruct H as (Ht & (p & Hp & Hlt) & Hmin).
    rewrite length_map in Ht. split; [lia|]. split.
    + rewrite list_lookup_fmap in Hp.
      destruct (steps !! (t - 1)) as [l|]; simpl in Hp; [|done].
      injection Hp as <-. eauto.
    + intros s l Hs Hl. eapply (Hmin s); [done|].
      by rewrite list_lookup_fmap, Hl.
  - right. split; [done|]. intros s l Hl. eapply (H s).
    by rewrite list_lookup_fmap, Hl.
Qed.

Lemma queries_needed_sample_bounds steps thr :
  needed steps thr <= length steps /\
  (steps <> [] -> 1 <= needed steps thr).
Proof.
  destruct (queries_needed_sample_spec steps thr) as [(H & _)|[H _]].
  - lia.
  - rewrite H. split; [done|]. destruct steps; [done|]. simpl. lia.
Qed.


End StoppingFacts.

(** *** Stacking the recorded logits *)

Lemma omap_length_all {A B} (f : A -> option B) (l : list A) :
  Forall (fun x => is_Some (f x)) l -> length (omap f l) = length l.
Proof.
  induction 1 as [|x l [y Hy] _ IH]; [done|].
  cbn [omap list_omap]. rewrite Hy. simpl. by rewrite IH.
Qed.

Lemma torch_stack_inv ts t :
  torch_stack ts = Some t ->
  t = ts /\ exists t0 ts', ts = t0 :: ts' /\
    Forall (fun m : list (list Q) => length m = length t0) ts.
Proof.
  unfold torch_stack. destruct ts as [|t0 ts']; [done|].
  destruct (forallb _ _) eqn:E; [|done]. intros [= <-].
  split; [done|]. exists t0, ts'. split; [done|].
  apply Forall_forall. intros m Hm.
  rewrite forallb_forall in E. apply list_elem_of_In, E in Hm.
  apply bool_decide_eq_true in Hm.
  apply (f_equal length) in Hm. by rewrite !length_map in Hm.
Qed.

Lemma permute_102_shape ts t :
  torch_stack ts = Some t ->
  0 < length ts /\
  length (permute_102 t) = length (default [] (head ts)) /\
  Forall (fun steps => length steps = length ts) (permute_102 t).
Proof.
  intros H. apply torch_stack_inv in H as (-> & t0 & ts' & -> & Hall).
  split; [simpl; lia|]. unfold permute_102.
  split; [by rewrite length_map, length_seq|].
  apply Forall_forall. intros steps Hin.
  apply list_elem_of_fmap in Hin as (n & -> & Hn).
  apply elem_of_seq in Hn. apply omap_length_all.
  eapply Forall_impl; [exact Hall|]. intros m Hm. simpl in Hm.
  apply lookup_lt_is_Some_2. lia.
Qed.

Section EvaluationFacts.
Variable classifier : Batch -> list (list Q).
Variable querier : Batch -> list (list Q) -> list (list Q).
Variable update_masked_image :
  Batch -> Batch -> list (list Q) -> nat -> Batch.
Variable softmax : list Q -> list Q.
Variable std : list Q -> Q.
Variable max_queries_test : nat.

Local Abbreviation batch_env :=
  (eval_batch classifier querier update_masked_image softmax std max_queries_test).
Local Abbreviation rollout :=
  (eval_loop classifier querier update_masked_image).

Lemma eval_batch_inv len_testset b e :
  batch_env len_testset b = Some e ->
  exists st ll w stacked,
    rollout b.1 max_queries_test (rollout_init b.1) = Some st /\
    label_logits st = Some ll /\
    batch_weight (length b.1) len_testset = Some w /\
    torch_stack (logits st) = Some stacked /\
    env_N e = length b.1 /\
    env_logits e = permute_102 stacked /\
    compute_queries_needed softmax (permute_102 stacked) THRESHOLD
      = Some (env_queries_needed e) /\
    (exists pred hits, argmax_dim1 ll = Some pred /\
       eq_float pred b.2 = Some hits /\ acc_max e = (mean hits * w)%Q) /\
    (exists rows hits, index_rows (permute_102 stacked) (env_queries_needed e) = Some rows /\
       argmax_dim1 rows = Some (env_test_pred_ip e) /\
       eq_float (env_test_pred_ip e) b.2 = Some hits /\
       acc_ip e = (mean hits * w)%Q) /\
    qry_need_avg e = (mean (to_float (env_queries_needed e)) * w)%Q /\
    qry_need_std e = (std (to_float (env_queries_needed e)) * w)%Q.
Proof.
  unfold eval_batch. cbv zeta. intros H.
  apply bind_Some in H as (st & Hst & H).
  apply bind_Some in H as (ll & Ell & H).
  apply bind_Some in H as (pred & Ep & H).
  apply bind_Some in H as (hits & Eh & H).
  apply bind_Some in H as (w & Ew & H).
  apply bind_Some in H as (stacked & Es & H).
  apply bind_Some in H as (qn & Eq & H).
  apply bind_Some in H as (rows & Er & H).
  apply bind_Some in H as (pip & Epi & H).
  apply bind_Some in H as (hits_ip & Ehi & H).
  injection H as <-. cbn [env_N env_logits env_queries_needed env_test_pred_ip
    acc_max acc_ip qry_need_avg qry_need_std].
  exists st, ll, w, stacked. repeat split; eauto 10.
Qed.

Lemma eval_batch_queries_needed len_testset b e :
  batch_env len_testset b = Some e ->
  0 < max_queries_test /\
  length (env_logits e) = length (env_queries_needed e) /\
  Forall (fun steps => length steps = max_queries_test) (env_logits e) /\
  Forall (fun q => 1 <= q <= max_queries_test) (env_queries_needed e).
Proof.
  intros H.
  apply eval_batch_inv in H
    as (st & ll & w & stacked & Hloop & _ & _ & Hst & _ & Hlg & Hqn & _).
  apply eval_loop_lengths in Hloop as [Hlen _]. simpl in Hlen.
  apply permute_102_shape in Hst as (Hpos & _ & Hrows).
  rewrite Hlen in Hpos, Hrows. rewrite Hlg. split; [done|].
  unfold compute_queries_needed in Hqn.
  destruct (_ && _); [|done]. injection Hqn as Hqn. rewrite <- Hqn.
  split; [by rewrite length_map|]. split; [done|].
  apply Forall_fmap. eapply Forall_impl; [exact Hrows|].
  intros steps Hsteps. simpl.
  pose proof (queries_needed_sample_bounds softmax steps THRESHOLD) as [Hle Hge].
  rewrite Hsteps in Hle. split; [|done]. apply Hge.
  intros ->. simpl in Hsteps. lia.
Qed.

(** C2. Every value returned by [compute_queries_needed] is at most the
    number of steps of its sample and at least 1 when there is a step;
    in the test loop the stacked logits always have [max_queries_test >= 1]
    steps, so the queries needed lie in [1, max_queries_test] and position
    [queries_needed - 1] of the step dimension exists, without wrapping
    around. *)
Theorem queries_needed_in_bounds len_testset b e :
  batch_env len_testset b = Some e ->
  (forall lg thr qn, compute_queries_needed softmax lg thr = Some qn ->
     Forall2 (fun steps q => q <= length steps /\ (steps <> [] -> 1 <= q)) lg qn) /\
  Forall (fun q => 1 <= q <= max_queries_test) (env_queries_needed e) /\
  (forall n q, env_queries_needed e !! n = Some q ->
     exists steps, env_logits e !! n = Some steps /\
       length steps = max_queries_test /\
       is_Some (steps !! (q - 1)) /\
       wrap_index (length steps) (Z.of_nat q - 1) = Some (q - 1)).
Proof.
  intros H. split.
  - intros lg thr qn Hqn. unfold compute_queries_needed in Hqn.
    destruct (_ && _); [|done]. injection Hqn as <-.
    apply Forall2_fmap_r, Forall_Forall2_diag, Forall_forall.
    intros steps _. apply queries_needed_sample_bounds.
  - apply eval_batch_queries_needed in H as (Hpos & Hlen & Hrows & Hqn).
    split; [done|]. intros n q Hq.
    destruct (lookup_lt_is_Some_2 (env_logits e) n) as [steps Hsteps].
    { rewrite Hlen. eapply lookup_lt_Some; eauto. }
    pose proof (Forall_lookup_1 _ _ _ _ Hrows Hsteps) as Hs. simpl in Hs.
    pose proof (Forall_lookup_1 _ _ _ _ Hqn Hq) as Hb. simpl in Hb.
    exists steps. split; [done|]. split; [done|]. split.
    + apply lookup_lt_is_Some_2. lia.
    + unfold wrap_index. rewrite decide_True by lia. f_equal. lia.
Qed.

(** *** The test loop keeps the last batch only *)

Local Abbreviation loop_over :=
  (test_loop classifier querier update_masked_image softmax std max_queries_test).
Local Abbreviation evaluate :=
  (evaluation classifier querier update_masked_image softmax std max_queries_test).

Lemma test_loop_app len_testset bs1 : forall env bs2,
  loop_over len_testset env (bs1 ++ bs2) =
  loop_over len_testset env bs1 ≫= fun env1 => loop_over len_testset env1 bs2.
Proof.
  induction bs1 as [|b bs1 IH]; intros env bs2; simpl; [done|].
  destruct (batch_env len_testset b) as [e|]; simpl; [apply IH|done].
Qed.

Lemma test_loop_last len_testset env bs b env' :
  loop_over len_testset env (bs ++ [b]) = Some env' ->
  exists e, batch_env len_testset b = Some e /\ env' = Some e.
Proof.
  rewrite test_loop_app. intros H.
  apply bind_Some in H as (env1 & _ & H). simpl in H.
  apply bind_Some in H as (e & He & H). injection H as <-. eauto.
Qed.

Lemma batch_weight_Some N len_testset w :
  batch_weight N len_testset = Some w ->
  len_testset <> 0 /\ w = (Qnat N / Qnat len_testset)%Q.
Proof.
  unfold batch_weight. case_decide; [done|]. by intros [= <-].
Qed.

Lemma Qnat_nonzero n : n <> 0 -> ~ (Qnat n == 0)%Q.
Proof.
  intros Hn H. unfold Qnat, Qeq in H. simpl in H. lia.
Qed.

Lemma eval_batch_reweigh len_testset len' b e :
  batch_env len_testset b = Some e -> len' <> 0 ->
  exists e', batch_env len' b = Some e' /\
    env_queries_needed e' = env_queries_needed e /\
    exists s_max s_ip s_avg s_std,
      let w := (Qnat (length b.1) / Qnat len_testset)%Q in
      let w' := (Qnat (length b.1) / Qnat len')%Q in
      acc_max e = (s_max * w)%Q /\ acc_max e' = (s_max * w')%Q /\
      acc_ip e = (s_ip * w)%Q /\ acc_ip e' = (s_ip * w')%Q /\
      qry_need_avg e = (s_avg * w)%Q /\ qry_need_avg e' = (s_avg * w')%Q /\
      qry_need_std e = (s_std * w)%Q /\ qry_need_std e' = (s_std * w')%Q.
Proof.
  intros H Hlen'.
  apply eval_batch_inv in H
    as (st & ll & w & stacked & Hloop & Hll & Hw & Hst & _ & _ & Hqn
        & (pred & hits & Hp & Hh & Hacc) & (rows & hits_ip & Hr & Hpi & Hhi & Hai)
        & Havg & Hstd).
  apply batch_weight_Some in Hw as [_ ->].
  unfold eval_batch. cbv zeta.
  rewrite Hloop. cbn [mbind option_bind]. rewrite Hll. cbn [mbind option_bind].
  rewrite Hp. cbn [mbind option_bind]. rewrite Hh. cbn [mbind option_bind].
  unfold batch_weight at 1. rewrite decide_False by done. cbn [mbind option_bind].
  rewrite Hst. cbn [mbind option_bind]. rewrite Hqn. cbn [mbind option_bind].
  rewrite Hr. cbn [mbind option_bind]. rewrite Hpi. cbn [mbind option_bind].
  rewrite Hhi. cbn [mbind option_bind].
  eexists. split; [reflexivity|]. cbn [env_queries_needed acc_max acc_ip
    qry_need_avg qry_need_std]. split; [done|].
  exists (mean hits), (mean hits_ip), (mean (to_float (env_queries_needed e))),
    (std (to_float (env_queries_needed e))).
  cbv zeta. rewrite Hacc, Hai, Havg, Hstd. unfold Qnat. done.
Qed.

Lemma reweigh_alone (s : Q) N len_testset :
  N <> 0 -> len_testset <> 0 ->
  (s * (Qnat N / Qnat len_testset) ==
   s * (Qnat N / Qnat N) * (Qnat N / Qnat len_testset))%Q.
Proof.
  intros HN Hl. apply Qnat_nonzero in HN, Hl. field. split; done.
Qed.

(** *** Sums of step counts *)

Lemma sumQ_app l1 l2 : (sumQ (l1 ++ l2) == sumQ l1 + sumQ l2)%Q.
Proof.
  induction l1 as [|x l1 IH]; simpl.
  - by rewrite Qplus_0_l.
  - rewrite IH. by rewrite Qplus_assoc.
Qed.

Lemma sumQ_ge_length l :
  Forall (fun x => (1 <= x)%Q) l -> (Qnat (length l) <= sumQ l)%Q.
Proof.
  induction 1 as [|x l Hx _ IH]; simpl.
  - unfold Qnat. simpl. apply Qle_refl.
  - unfold Qnat in *. rewrite Nat2Z.inj_succ, <- Z.add_1_l, inject_Z_plus.
    apply Qplus_le_compat; done.
Qed.

Lemma to_float_ge_1 qn :
  Forall (fun q => 1 <= q) qn -> Forall (fun x => (1 <= x)%Q) (to_float qn).
Proof.
  intros H. unfold to_float. apply Forall_fmap.
  eapply Forall_impl; [exact H|]. intros q Hq. simpl in *.
  change 1%Q with (inject_Z 1). rewrite <- Zle_Qle. lia.
Qed.

Lemma mean_weighted l N len_testset :
  length l = N -> N <> 0 -> len_testset <> 0 ->
  (mean l * (Qnat N / Qnat len_testset) == sumQ l / Qnat len_testset)%Q.
Proof.
  intros Hl HN Hlen. unfold mean. rewrite Hl. fold (Qnat N).
  apply Qnat_nonzero in HN, Hlen. field. split; done.
Qed.

Lemma env_queries_needed_length len_testset b e :
  classifier_shaped classifier ->
  batch_env len_testset b = Some e ->
  length (env_queries_needed e) = length b.1.
Proof.
  intros Hc H.
  pose proof (eval_batch_queries_needed _ _ _ H) as (Hpos & Hlen & _).
  apply eval_batch_inv in H
    as (st & ll & w & stacked & Hloop & _ & _ & Hst & _ & Hlg & _).
  rewrite <- Hlen, Hlg.
  apply permute_102_shape in Hst as (_ & -> & _).
  destruct (rollout_step_recorded _ _ _ _ _ _ 0 Hloop Hpos) as (st0 & Hb & Hl & _).
  injection Hb as <-. rewrite head_lookup, Hl. simpl.
  rewrite Hc. unfold zeros_like. by rewrite length_map.
Qed.

Lemma sum_queries_positive len_testset bs envs :
  classifier_shaped classifier ->
  bs <> [] -> Forall (fun b : Batch * list Z => b.1 <> []) bs ->
  Forall2 (fun b e => batch_env len_testset b = Some e) bs envs ->
  (0 < sumQ (concat (map (fun e => to_float (env_queries_needed e)) envs)))%Q.
Proof.
  intros Hc Hne Hbs H.
  destruct H as [|b e bs envs He H]; [done|].
  apply Forall_cons in Hbs as [Hb Hbs]. simpl.
  rewrite sumQ_app.
  assert (1 <= sumQ (to_float (env_queries_needed e)))%Q as H1.
  { pose proof (eval_batch_queries_needed _ _ _ He) as (_ & _ & _ & Hqn).
    pose proof (env_queries_needed_length _ _ _ Hc He) as Hlen.
    eapply Qle_trans; [|apply sumQ_ge_length, to_float_ge_1].
    - unfold to_float. rewrite length_map, Hlen. unfold Qnat.
      change 1%Q with (inject_Z 1). rewrite <- Zle_Qle.
      destruct b.1; [done|]. simpl length. lia.
    - eapply Forall_impl; [exact Hqn|]. intros q Hq. simpl in *. lia. }
  assert (0 <= sumQ (concat (map (fun e => to_float (env_queries_needed e)) envs)))%Q
    as H0.
  { eapply Qle_trans; [|apply sumQ_ge_length].
    - unfold Qnat. change 0%Q with (inject_Z 0). rewrite <- Zle_Qle. lia.
    - apply Forall_concat, Forall_fmap.
      apply Forall2_Forall_r with (Q := fun e =>
        Forall (fun x => (1 <= x)%Q) (to_float (env_queries_needed e))) in H;
        [done|].
      apply Forall_forall. intros b' _ e' He'.
      apply eval_batch_queries_needed in He' as (_ & _ & _ & Hqn).
      apply to_float_ge_1. eapply Forall_impl; [exact Hqn|].
      intros q Hq. simpl in *. lia. }
  lra.
Qed.

(** After a test loop over the batches [bs ++ [b]] the logged metrics are
    those of the iteration of the final batch [b]. *)
Lemma test_loop_keeps_last_batch len_testset epoch env0 bs b entry e :
  evaluate len_testset epoch env0 (bs ++ [b]) = Some (entry, e) ->
  (batch_env len_testset b = Some e /\
   test_epoch entry = epoch /\
   test_acc_max entry = acc_max e /\
   test_acc_ip entry = acc_ip e /\
   log_qry_need_avg entry = qry_need_avg e /\
   log_qry_need_std entry = qry_need_std e) /\
  (b.1 <> [] ->
   exists alone, batch_env (length b.1) b = Some alone /\
     let w := (Qnat (length b.1) / Qnat len_testset)%Q in
     (test_acc_max entry == acc_max alone * w)%Q /\
     (test_acc_ip entry == acc_ip alone * w)%Q /\
     (log_qry_need_avg entry == qry_need_avg alone * w)%Q /\
     (log_qry_need_std entry == qry_need_std alone * w)%Q) /\
  (forall env0' bs' r,
     evaluate len_testset epoch env0' (bs' ++ [b]) = Some r -> r = (entry, e)) /\
  (forall envs,
     classifier_shaped classifier ->
     bs <> [] -> Forall (fun b' : Batch * list Z => b'.1 <> []) (bs ++ [b]) ->
     mapM (batch_env len_testset) (bs ++ [b]) = Some envs ->
     (log_qry_need_avg entry < global_mean_queries envs len_testset)%Q).
Proof.
  intros H. unfold evaluation in H.
  apply bind_Some in H as (env' & Hloop & H).
  apply bind_Some in H as (e0 & -> & H).
  injection H as Hentry He0. subst e0 entry.
  apply test_loop_last in Hloop as (e1 & He & He1).
  injection He1 as He1. subst e1.
  cbn [test_epoch test_acc_max test_acc_ip log_qry_need_avg log_qry_need_std].
  split; [done|].
  assert (len_testset <> 0) as Hlen.
  { apply eval_batch_inv in He as (? & ? & w & ? & _ & _ & Hw & _).
    by apply batch_weight_Some in Hw as [? _]. }
  split; [|split].
  - intros Hb. assert (length b.1 <> 0) as HN by (by destruct b.1).
    destruct (eval_batch_reweigh _ (length b.1) _ _ He HN)
      as (alone & Ha & _ & s1 & s2 & s3 & s4 & Hs).
    cbv zeta in Hs.
    destruct Hs as (E1 & E1' & E2 & E2' & E3 & E3' & E4 & E4').
    exists alone. split; [done|]. cbv zeta.
    rewrite E1, E1', E2, E2', E3, E3', E4, E4'.
    repeat split; by apply reweigh_alone.
  - intros env0' bs' r Hr. unfold evaluation in Hr.
    apply bind_Some in Hr as (env'' & Hloop' & Hr).
    apply bind_Some in Hr as (e0' & -> & Hr). injection Hr as Hr. subst r.
    apply test_loop_last in Hloop' as (e2 & He2 & He2').
    injection He2' as He2'. subst e2.
    rewrite He in He2. injection He2 as He2. by subst e0'.
  - intros envs Hc Hbs Hne Hm.
    apply mapM_Some in Hm. apply Forall2_app_inv_l in Hm
      as (envs1 & envs2 & H1 & H2 & ->).
    apply Forall2_cons_inv_l in H2 as (e2 & envs3 & He2 & Hnil & ->).
    apply Forall2_nil_inv_l in Hnil as ->.
    rewrite He in He2. injection He2 as He2. subst e2.
    apply Forall_app in Hne as [Hne1 Hne2].
    apply Forall_cons in Hne2 as [Hb _].
    pose proof (sum_queries_positive _ _ _ Hc Hbs Hne1 H1) as Hpos.
    pose proof (env_queries_needed_length _ _ _ Hc He) as Hqlen.
    apply eval_batch_inv in He
      as (? & ? & w & ? & _ & _ & Hw & _ & _ & _ & _ & _ & _ & Havg & _).
    apply batch_weight_Some in Hw as [_ ->]. rewrite Havg.
    unfold global_mean_queries. rewrite map_app, concat_app. simpl.
    rewrite app_nil_r, sumQ_app.
    rewrite mean_weighted; [| by unfold to_float; rewrite length_map
                            | by destruct b.1 | done].
    apply Qnat_nonzero in Hlen.
    assert (0 < Qnat len_testset)%Q as Hlpos.
    { unfold Qnat in *. change 0%Q with (inject_Z 0). rewrite <- Zlt_Qlt.
      assert (Z.of_nat len_testset <> 0)%Z; [|lia].
      intros Hz. apply Hlen. by rewrite Hz. }
    apply Qlt_shift_div_l; [done|].
    set (a := sumQ (to_float (env_queries_needed e))) in *.
    set (c := sumQ (concat _)) in *.
    assert (a / Qnat len_testset * Qnat len_testset == a)%Q as ->
      by (field; done).
    lra.
Qed.

(** *** The batches of the loader *)

Lemma chunks_spec {A} batch_size fuel : forall l : list A,
  batch_size <> 0 -> length l <= fuel ->
  concat (chunks fuel batch_size l) = l /\
  Forall (fun c => c <> []) (chunks fuel batch_size l) /\
  (l <> [] -> chunks fuel batch_size l <> []) /\
  (batch_size < length l -> 2 <= length (chunks fuel batch_size l)).
Proof.
  intros l Hbs. revert l. induction fuel as [|fuel IH]; intros l Hlen.
  - destruct l; simpl in *; [|lia]. repeat split; [constructor|done|lia].
  - destruct l as [|x l'].
    { simpl. repeat split; [constructor|done|simpl; lia]. }
    change (chunks (S fuel) batch_size (x :: l')) with
      (take batch_size (x :: l')
         :: chunks fuel batch_size (drop batch_size (x :: l'))).
    remember (x :: l') as l eqn:El.
    assert (0 < length l) as Hpos by (subst l; simpl; lia).
    assert (length l <= S fuel) as Hlen' by (subst l; done).
    clear El Hlen x l'.
    assert (length (drop batch_size l) <= fuel) as Hdrop.
    { rewrite length_drop. lia. }
    destruct (IH (drop batch_size l) Hdrop) as (Hcat & Hall & Hnonempty & _).
    split; [|split; [|split]].
    + simpl. rewrite Hcat. apply take_drop.
    + constructor; [|done]. intros Htake.
      apply (f_equal length) in Htake. rewrite length_take in Htake.
      simpl in Htake. lia.
    + done.
    + intros Hlt. simpl.
      assert (drop batch_size l <> []) as Hrest.
      { intros Hd. apply (f_equal length) in Hd. rewrite length_drop in Hd.
        simpl in Hd. lia. }
      specialize (Hnonempty Hrest).
      destruct (chunks fuel batch_size (drop batch_size l)); [done|]. simpl. lia.
Qed.

Lemma DataLoader_batches testset batch_size loader :
  DataLoader testset batch_size = Some loader -> testset <> [] ->
  exists bs b, loader = bs ++ [b] /\
    Forall (fun b' : Batch * list Z => b'.1 <> []) (bs ++ [b]) /\
    (batch_size < length testset -> bs <> []).
Proof.
  unfold DataLoader. case_decide as Hbs; [done|]. intros [= <-] Hne.
  destruct (chunks_spec batch_size (length testset) testset Hbs ltac:(lia))
    as (_ & Hall & Hnonempty & Htwo).
  specialize (Hnonempty Hne).
  set (cs := chunks (length testset) batch_size testset) in *.
  destruct (exists_last Hnonempty) as (cs' & c & Hcs).
  exists (map (fun c => (map fst c, map snd c)) cs'), (map fst c, map snd c).
  rewrite Hcs in *. split; [by rewrite map_app|]. split.
  - change [(map fst c, map snd c)]
      with (map (fun c : list (Image * Z) => (map fst c, map snd c)) [c]).
    rewrite <- map_app. apply Forall_fmap.
    eapply Forall_impl; [exact Hall|]. intros c0 Hc0. simpl.
    by destruct c0.
  - intros Hlt. specialize (Htwo Hlt). rewrite length_app in Htwo.
    simpl in Htwo. destruct cs'; simpl in *; [lia|done].
Qed.

Lemma test_loop_envs len_testset bs : forall env env',
  loop_over len_testset env bs = Some env' ->
  is_Some (mapM (batch_env len_testset) bs).
Proof.
  induction bs as [|b bs IH]; intros env env' H; [by eexists|].
  simpl in H. apply bind_Some in H as (e & He & H).
  apply mapM_is_Some, Forall_cons. split.
  - unfold compose. rewrite He. by eexists.
  - apply mapM_is_Some. eapply IH; eauto.
Qed.

Lemma eval_batch_hits len_testset b e :
  batch_env len_testset b = Some e ->
  exists hits_max hits_ip,
    batch_hits_max classifier querier update_masked_image max_queries_test b
      = Some hits_max /\
    batch_hits_ip classifier querier update_masked_image softmax
      max_queries_test b = Some hits_ip /\
    let w := (Qnat (length b.1) / Qnat len_testset)%Q in
    acc_max e = (mean hits_max * w)%Q /\ acc_ip e = (mean hits_ip * w)%Q.
Proof.
  intros H. apply eval_batch_inv in H
    as (st & ll & w & stacked & Hloop & Hll & Hw & Hst & _ & _ & Hqn
        & (pred & hits & Hp & Hh & Hacc) & (rows & hits_ip & Hr & Hpi & Hhi & Hai)
        & _).
  apply batch_weight_Some in Hw as [_ ->].
  exists hits, hits_ip. unfold batch_hits_max, batch_hits_ip. cbv zeta.
  rewrite Hloop. cbn [mbind option_bind]. rewrite Hll, Hst.
  cbn [mbind option_bind]. rewrite Hp, Hqn. cbn [mbind option_bind].
  rewrite Hr. cbn [mbind option_bind]. rewrite Hpi. cbn [mbind option_bind].
  done.
Qed.


End EvaluationFacts.

(** *** The temperature schedule *)

Lemma linspace_length a b n : length (linspace a b n) = n.
Proof.
  unfold linspace. cbv zeta.
  assert (forall (f g : Q -> Q), length (map g (map f (map Qnat (seq 0 n)))) = n)
    as Hlen by (intros; by rewrite !length_map, length_seq).
  repeat case_decide; try destruct (Qeq_bool _ _);
    rewrite ?length_insert; apply Hlen.
Qed.

Lemma linspace_single a b : linspace a b 1 = [(Qnat 0 * (b - a) + a)%Q].
Proof. done. Qed.

Lemma Qnat_le i j : i <= j -> (Qnat i <= Qnat j)%Q.
Proof. intros H. unfold Qnat. rewrite <- Zle_Qle. lia. Qed.

Lemma Qnat_pos n : 0 < n -> (0 < Qnat n)%Q.
Proof.
  intros H. unfold Qnat. change 0%Q with (inject_Z 0). rewrite <- Zlt_Qlt. lia.
Qed.

Lemma interpolate_last a b n : 2 <= n -> (interpolate a b n (n - 1) == b)%Q.
Proof.
  intros Hn. unfold interpolate.
  assert (~ (Qnat (n - 1) == 0)%Q) by (apply Qnat_nonzero; lia).
  field. done.
Qed.

Lemma interpolate_first a b n : (interpolate a b n 0 == a)%Q.
Proof. unfold interpolate, Qnat. simpl. ring. Qed.

Lemma linspace_lookup a b n i :
  2 <= n -> i < n ->
  exists v, linspace a b n !! i = Some v /\ (v == interpolate a b n i)%Q /\
            (i = n - 1 -> v = b).
Proof.
  intros Hn Hi. unfold linspace. cbv zeta.
  destruct (decide (0 < n - 1)); [|lia]. destruct (decide (1 < n)); [|lia].
  assert (~ (Qnat (n - 1) == 0)%Q) as Hdiv by (apply Qnat_nonzero; lia).
  destruct (decide (i = n - 1)) as [->|Hne].
  - exists b. split; [|split; [|done]].
    + apply list_lookup_insert_eq.
      destruct (Qeq_bool _ _); rewrite !length_map, length_seq; lia.
    + symmetry. by apply interpolate_last.
  - rewrite list_lookup_insert_ne by done.
    destruct (Qeq_bool _ _) eqn:E;
      rewrite !list_lookup_fmap, lookup_seq_lt by done; simpl;
      eexists; (split; [reflexivity|]); (split; [|done]);
      unfold interpolate; field; done.
Qed.

Lemma interpolate_antitone a b n i j :
  2 <= n -> (b <= a)%Q -> i <= j ->
  (interpolate a b n j <= interpolate a b n i)%Q.
Proof.
  intros Hn Hba Hij. unfold interpolate.
  assert (0 < Qnat (n - 1))%Q as Hpos by (apply Qnat_pos; lia).
  assert ((b - a) / Qnat (n - 1) <= 0)%Q as Hs.
  { apply Qle_shift_div_r; [done|]. lra. }
  apply Qnat_le in Hij.
  set (s := ((b - a) / Qnat (n - 1))%Q) in *. nra.
Qed.

Lemma train_batches_spec epoch tau q batches :
  (train_batches epoch tau q batches).2 =
    map (fun b => {| fw_epoch := epoch; fw_batch := b; fw_tau := tau |}) batches.
Proof.
  revert q. induction batches as [|b batches IH]; intros q; simpl; [done|].
  specialize (IH (update_tau q tau)).
  destruct (train_batches epoch tau (update_tau q tau) batches) as [q2 fws].
  simpl in *. by rewrite IH.
Qed.

Lemma train_epochs_spec tau_vals n_batches epochs : forall q,
  Forall (fun e => e < length tau_vals) epochs ->
  exists q' fws, train_epochs tau_vals n_batches q epochs = Some (q', fws) /\
    map (fun fw => (fw_epoch fw, fw_batch fw)) fws =
      flat_map (fun epoch => map (pair epoch) (seq 0 n_batches)) epochs /\
    Forall (fun fw => tau_vals !! fw_epoch fw = Some (fw_tau fw)) fws.
Proof.
  induction epochs as [|epoch epochs IH]; intros q Hall; simpl.
  - exists q, []. repeat split; constructor.
  - apply Forall_cons in Hall as [He Hall].
    destruct (lookup_lt_is_Some_2 tau_vals epoch He) as [tau Htau].
    rewrite Htau. simpl.
    pose proof (train_batches_spec epoch tau q (seq 0 n_batches)) as Hb.
    destruct (train_batches epoch tau q (seq 0 n_batches)) as [q1 fws1].
    simpl in Hb. destruct (IH q1 Hall) as (q' & fws & -> & Hsteps & Htaus).
    simpl. exists q', (fws1 ++ fws). split; [done|]. split.
    + rewrite map_app, Hsteps, Hb, map_map. done.
    + apply Forall_app. split; [|done]. rewrite Hb.
      apply Forall_fmap, Forall_forall. intros b _. done.
Qed.

(** C7 (amended). Training never fails. Its steps are the batches of the
    epochs in order, and the querier runs every one of them at the entry
    of [np.linspace(tau_start, tau_end, epochs)] of its epoch, written by
    [update_tau] at the head of the batch. The first epoch runs at
    [tau_start]. With at least two epochs the entries are the linear
    interpolation and the last epoch runs at [tau_end]; with a single
    epoch the schedule is [tau_start] alone. When [tau_end <= tau_start]
    the temperature never increases from one step to a later one. *)
Theorem temperature_schedule (tau_start tau_end : Q) (epochs n_batches : nat) :
  exists q fws,
    train tau_start tau_end epochs n_batches = Some (q, fws) /\
    map (fun fw => (fw_epoch fw, fw_batch fw)) fws
      = training_steps epochs n_batches /\
    Forall (fun fw =>
      linspace tau_start tau_end epochs !! fw_epoch fw = Some (fw_tau fw)) fws /\
    Forall (fun fw => fw_epoch fw = 0 -> (fw_tau fw == tau_start)%Q) fws /\
    (2 <= epochs ->
     Forall (fun fw =>
       (fw_tau fw == interpolate tau_start tau_end epochs (fw_epoch fw))%Q /\
       (fw_epoch fw = epochs - 1 -> fw_tau fw = tau_end)) fws) /\
    (epochs = 1 -> Forall (fun fw => (fw_tau fw == tau_start)%Q) fws) /\
    ((tau_end <= tau_start)%Q ->
     forall fw1 fw2, fw1 ∈ fws -> fw2 ∈ fws -> fw_epoch fw1 <= fw_epoch fw2 ->
       (fw_tau fw2 <= fw_tau fw1)%Q).
Proof.
  unfold train.
  destruct (train_epochs_spec (linspace tau_start tau_end epochs) n_batches
              (seq 0 epochs) {| q_tau := tau_start |})
    as (q & fws & Htrain & Hsteps & Htaus).
  { apply Forall_forall. intros e He. apply elem_of_seq in He.
    rewrite linspace_length. lia. }
  exists q, fws. split; [done|]. split; [done|]. split; [done|].
  assert (forall fw, fw ∈ fws -> fw_epoch fw < epochs) as Hlt.
  { intros fw Hin. rewrite Forall_forall in Htaus.
    apply Htaus, lookup_lt_Some in Hin. by rewrite linspace_length in Hin. }
  assert (2 <= epochs ->
    Forall (fun fw =>
       (fw_tau fw == interpolate tau_start tau_end epochs (fw_epoch fw))%Q /\
       (fw_epoch fw = epochs - 1 -> fw_tau fw = tau_end)) fws) as Hinterp.
  { intros Hn. apply Forall_forall. intros fw Hin.
    destruct (linspace_lookup tau_start tau_end epochs (fw_epoch fw) Hn (Hlt _ Hin))
      as (v & Hv & Heq & Hlast).
    rewrite Forall_forall in Htaus. rewrite (Htaus _ Hin) in Hv.
    injection Hv as <-. done. }
  assert (epochs = 1 -> Forall (fun fw => (fw_tau fw == tau_start)%Q) fws) as Hone.
  { intros ->. apply Forall_forall. intros fw Hin.
    rewrite Forall_forall in Htaus. specialize (Htaus _ Hin).
    specialize (Hlt _ Hin). replace (fw_epoch fw) with 0 in Htaus by lia.
    rewrite linspace_single in Htaus. injection Htaus as <-.
    unfold Qnat. simpl. ring. }
  split; [|split; [done|split; [done|]]].
  - apply Forall_forall. intros fw Hin H0.
    destruct (decide (epochs = 1)) as [H1|H1].
    + specialize (Hone H1). rewrite Forall_forall in Hone. by apply Hone.
    + specialize (Hlt _ Hin).
      assert (2 <= epochs) as Hn by lia. specialize (Hinterp Hn).
      rewrite Forall_forall in Hinterp. destruct (Hinterp _ Hin) as [Heq _].
      rewrite Heq, H0. apply interpolate_first.
  - intros Hle fw1 fw2 Hin1 Hin2 Hep.
    destruct (decide (epochs = 1)) as [H1|H1].
    + specialize (Hone H1). rewrite Forall_forall in Hone.
      rewrite (Hone _ Hin1), (Hone _ Hin2). apply Qle_refl.
    + pose proof (Hlt _ Hin1).
      assert (2 <= epochs) as Hn by lia. specialize (Hinterp Hn).
      rewrite Forall_forall in Hinterp.
      destruct (Hinterp _ Hin1) as [Heq1 _]. destruct (Hinterp _ Hin2) as [Heq2 _].
      rewrite Heq1, Heq2. by apply interpolate_antitone.
Qed.

(** With [--epochs 1] the schedule is [tau_start] alone, so the last
    epoch, which is the first, does not run at [tau_end]. *)
Lemma single_epoch_runs_at_tau_start :
  exists q fw,
    train 1 (2 # 10) 1 1 = Some (q, [fw]) /\
    fw_epoch fw = 1 - 1 /\
    ~ (fw_tau fw == 2 # 10)%Q.
Proof.
  eexists. eexists. split; [reflexivity|]. split; [reflexivity|].
  simpl. unfold Qeq. simpl. lia.
Qed.

(** *** Patch geometry *)

(** C4 (amended). In the reference configuration the patch index space
    has [QUERY_ALL = 676 = 26 * 26] entries, the number of positions of a
    [PATCH_SIZE = 3] window moved pixel by pixel over a 28 x 28 image;
    [PATCH_SIZE] does not divide 28, and the tiling formula gives 81. *)
Theorem reference_patch_geometry :
  QUERY_ALL = sliding_patches MNIST_SIDE MNIST_SIDE PATCH_SIZE /\
  QUERY_ALL = 26 * 26 /\
  MNIST_SIDE - PATCH_SIZE + 1 = 26 /\
  MNIST_SIDE mod PATCH_SIZE = 1 /\
  tiling_patches MNIST_SIDE MNIST_SIDE PATCH_SIZE = 81.
Proof. repeat split. Qed.

(** The configured constants do not satisfy the tiling formula, neither
    with integer nor with exact division, and the patch size does not
    divide the image side. *)
Lemma reference_geometry_is_not_a_tiling :
  QUERY_ALL <> tiling_patches MNIST_SIDE MNIST_SIDE PATCH_SIZE /\
  ~ (Qnat QUERY_ALL ==
       (Qnat MNIST_SIDE / Qnat PATCH_SIZE) * (Qnat MNIST_SIDE / Qnat PATCH_SIZE))%Q /\
  ~ (PATCH_SIZE | MNIST_SIDE).
Proof.
  split; [|split].
  - vm_compute. lia.
  - vm_compute. lia.
  - intros [k Hk]. unfold MNIST_SIDE, PATCH_SIZE in Hk. lia.
Qed.

(** *** Counting the ones of a mask row *)

Lemma count_ones_replicate_one P : count_ones (replicate P 1%Q) = P.
Proof.
  induction P as [|P IH]; [done|]. simpl replicate.
  rewrite count_ones_cons, IH. done.
Qed.

Lemma count_ones_insert_fresh j : forall row m,
  row !! j = Some m -> Qeq_bool m 1 = false ->
  count_ones (<[j := 1%Q]> row) = S (count_ones row).
Proof.
  induction j as [|j IH]; intros [|x row] m Hm Hne; simpl in *; try done.
  - injection Hm as ->. rewrite !count_ones_cons, Hne. done.
  - rewrite !count_ones_cons. erewrite IH by eauto. lia.
Qed.

Lemma count_ones_le_length row : count_ones row <= length row.
Proof.
  induction row as [|x row IH]; [done|].
  rewrite count_ones_cons. simpl. destruct (Qeq_bool x 1); lia.
Qed.

Lemma count_ones_room row :
  count_ones row < length row ->
  exists p m, row !! p = Some m /\ Qeq_bool m 1 = false.
Proof.
  induction row as [|x row IH]; simpl; [lia|].
  rewrite count_ones_cons. destruct (Qeq_bool x 1) eqn:E.
  - intros H. destruct IH as (p & m & Hp & Hm); [lia|].
    exists (S p), m. done.
  - intros _. exists 0, x. done.
Qed.

Lemma set_ones_length row idxs : length (set_ones row idxs) = length row.
Proof.
  induction idxs as [|j idxs IH]; simpl; [done|].
  by rewrite length_insert.
Qed.

Lemma set_ones_lookup_other row idxs j :
  j ∉ idxs -> set_ones row idxs !! j = row !! j.
Proof.
  induction idxs as [|i idxs IH]; simpl; [done|].
  intros Hj. apply not_elem_of_cons in Hj as [Hne Hj].
  rewrite list_lookup_insert_ne by done. by apply IH.
Qed.

Lemma count_ones_set_ones P idxs :
  NoDup idxs -> Forall (fun j => j < P) idxs ->
  count_ones (set_ones (replicate P 0%Q) idxs) = length idxs.
Proof.
  induction 1 as [|j idxs Hj _ IH]; intros Hlt; simpl.
  - apply count_ones_replicate_zero.
  - apply Forall_cons in Hlt as [HjP Hlt].
    rewrite (count_ones_insert_fresh j _ 0%Q); [by rewrite IH| |done].
    rewrite set_ones_lookup_other by done.
    by apply lookup_replicate_2.
Qed.

(** *** Random sampling *)

Section SamplingFacts.
Variable tape : nat -> nat.

Lemma draw_distinct_spec k : forall pool pos,
  NoDup pool ->
  let idxs := (draw_distinct tape k pool pos).1 in
  NoDup idxs /\ idxs ⊆ pool /\ length idxs = k `min` length pool.
Proof.
  induction k as [|k IH]; intros pool pos Hnd; simpl.
  - split; [constructor|]. split; [by intros y Hy; inversion Hy|done].
  - destruct pool as [|x0 pool'] eqn:Epool.
    { simpl. split; [constructor|]. split; [by intros y Hy; inversion Hy|done]. }
    rewrite <- Epool in *.
    set (i := tape pos mod length pool).
    assert (i < length pool) as Hi.
    { apply Nat.mod_upper_bound. rewrite Epool. simpl. lia. }
    destruct (lookup_lt_is_Some_2 pool i Hi) as [x Hx].
    pose proof (delete_Permutation pool i x Hx) as Hperm.
    assert (NoDup (x :: delete i pool)) as Hnd' by (by rewrite <- Hperm).
    apply NoDup_cons in Hnd' as [Hfresh Hnd'].
    specialize (IH (delete i pool) (S pos) Hnd').
    destruct (draw_distinct tape k (delete i pool) (S pos)) as [rest pos2].
    simpl in *. destruct IH as (Hnd_rest & Hsub & Hlen).
    rewrite Hx. simpl. split; [|split].
    + apply NoDup_cons. split; [|done]. intros Hin. apply Hfresh, Hsub, Hin.
    + intros y Hy. apply elem_of_cons in Hy as [->|Hy].
      * apply list_elem_of_lookup. eauto.
      * rewrite Hperm. apply elem_of_cons. right. by apply Hsub.
    + rewrite Hlen, length_delete by eauto.
      destruct (length pool) as [|m']; [lia|]. f_equal. f_equal. lia.
Qed.

Lemma random_row_spec k P pos :
  let row := (random_row tape k P pos).1 in
  length row = P /\ count_ones row = k `min` P /\
  (P <= k -> row = replicate P 1%Q).
Proof.
  unfold random_row. case_decide as Hk; simpl.
  - rewrite length_replicate, count_ones_replicate_one. split; [done|].
    split; [lia|done].
  - pose proof (draw_distinct_spec k (seq 0 P) pos (NoDup_seq 0 P))
      as (Hnd & Hsub & Hlen).
    destruct (draw_distinct tape k (seq 0 P) pos) as [idxs pos1]. simpl in *.
    rewrite set_ones_length, length_replicate. split; [done|]. split; [|lia].
    rewrite count_ones_set_ones; [by rewrite Hlen, length_seq|done|].
    apply Forall_forall. intros j Hj. apply Hsub, elem_of_seq in Hj. lia.
Qed.

(** C5. [random_sampling(k, P, n)] returns [n] rows of [P] entries with
    exactly [min(k, P)] ones in every row, for every budget, width, batch
    size and state of the random source; a budget of [P] or more gives
    the all-ones mask. *)
Theorem random_sampling_budget (k P n pos : nat) :
  let m := (random_sampling tape k P n pos).1 in
  length m = n /\
  Forall (fun row => length row = P /\ count_ones row = k `min` P) m /\
  (P <= k -> m = replicate n (replicate P 1%Q)).
Proof.
  revert pos. induction n as [|n IH]; intros pos; simpl.
  - split; [done|]. split; [constructor|done].
  - pose proof (random_row_spec k P pos) as (Hlen & Hcount & Hall).
    destruct (random_row tape k P pos) as [row pos1]. simpl in *.
    specialize (IH pos1).
    destruct (random_sampling tape k P n pos1) as [rows pos2]. simpl in *.
    destruct IH as (IH1 & IH2 & IH3). split; [by rewrite IH1|].
    split; [by constructor|]. intros Hk. by rewrite Hall, IH3.
Qed.

Lemma randint_from_spec low span n : forall pos,
  0 < span ->
  let r := randint_from tape low span n pos in
  length r.1 = n /\ Forall (fun v => low <= v < low + span) r.1.
Proof.
  induction n as [|n IH]; intros pos Hspan; simpl.
  - split; [done|constructor].
  - specialize (IH (S pos) Hspan).
    destruct (randint_from tape low span n (S pos)) as [rs pos2]. simpl in *.
    destruct IH as [IH1 IH2]. split; [by rewrite IH1|].
    constructor; [|done].
    pose proof (Nat.mod_upper_bound (tape pos) span). lia.
Qed.

Lemma randint_from_eq low span n : forall pos,
  randint_from tape low span n pos =
    (map (fun i => low + tape (pos + i) mod span) (seq 0 n), pos + n).
Proof.
  induction n as [|n IH]; intros pos; simpl.
  - by rewrite Nat.add_0_r.
  - rewrite IH. rewrite Nat.add_0_r. f_equal; [|lia]. f_equal.
    rewrite <- seq_shift, map_map. apply map_ext. intros i.
    by replace (S pos + i) with (pos + S i) by lia.
Qed.

End SamplingFacts.

Lemma count_in_seq P b :
  b < P -> length (filter (fun v => v = b) (seq 0 P)) = 1.
Proof.
  intros Hb. replace P with (b + (1 + (P - S b))) by lia.
  rewrite !seq_app, !filter_app, !length_app. simpl seq.
  rewrite filter_cons, decide_True, filter_nil by lia. simpl length.
  assert (forall l : list nat, b ∉ l ->
            length (filter (fun v => v = b) l) = 0) as Hnone.
  { induction l as [|x l IH]; intros Hnot; [done|].
    apply not_elem_of_cons in Hnot as [Hne Hnot].
    rewrite filter_cons, decide_False by done. by apply IH. }
  rewrite !Hnone; [lia| |]; rewrite elem_of_seq; lia.
Qed.

Lemma count_residue P m b :
  b < P ->
  length (filter (fun v => v = b) (map (fun i => i mod P) (seq 0 (m * P)))) = m.
Proof.
  intros Hb. induction m as [|m IH]; [done|].
  replace (S m * P) with (m * P + P) by lia.
  rewrite seq_app, map_app, filter_app, length_app, IH. simpl.
  assert (map (fun i => i mod P) (seq (m * P) P) = seq 0 P) as ->.
  { rewrite <- (Nat.add_0_r (m * P)) at 1.
    rewrite <- (fmap_add_seq (m * P) 0 P), map_map.
    rewrite <- (map_id (seq 0 P)) at 2. apply map_ext_in. intros j Hj.
    apply in_seq in Hj.
    rewrite Nat.add_comm, Nat.Div0.mod_add. apply Nat.mod_small. lia. }
  rewrite count_in_seq by done. lia.
Qed.

(** *** Greedy selection and adaptive sampling *)

Lemma masked_argmax_from_origin scores : forall maskrow best i j s,
  masked_argmax_from best i scores maskrow = Some (j, s) ->
  best = Some (j, s) \/
  (i <= j /\ exists m, maskrow !! (j - i) = Some m /\ Qeq_bool m 1 = false).
Proof.
  induction scores as [|s0 scores IH]; intros [|m0 maskrow] best i j s H;
    simpl in H; try (by left).
  assert (forall best', masked_argmax_from best' (S i) scores maskrow = Some (j, s) ->
            best' = best \/ (best' = Some (i, s0) /\ Qeq_bool m0 1 = false) ->
            best = Some (j, s) \/
            (i <= j /\ exists m, (m0 :: maskrow) !! (j - i) = Some m /\
                                 Qeq_bool m 1 = false)) as Hstep.
  { intros best' H' Hbest'. apply IH in H' as [Hb|(Hle & m & Hm & Hne)].
    - destruct Hbest' as [->|[-> Hm0]]; [by left|].
      injection Hb as <- <-. right. split; [done|].
      rewrite Nat.sub_diag. eauto.
    - right. split; [lia|]. exists m. split; [|done].
      replace (j - i) with (S (j - S i)) by lia. done. }
  destruct (Qeq_bool m0 1) eqn:Em.
  - eapply Hstep; eauto.
  - destruct best as [[bi b]|].
    + destruct (Qltb b s0); eapply Hstep; eauto.
    + eapply Hstep; eauto.
Qed.

Lemma masked_argmax_from_Some scores : forall maskrow best i,
  is_Some best -> is_Some (masked_argmax_from best i scores maskrow).
Proof.
  induction scores as [|s0 scores IH]; intros [|m0 maskrow] best i Hb;
    simpl; try done.
  destruct (Qeq_bool m0 1); [by apply IH|].
  destruct best as [[bi b]|]; [|by apply IH].
  destruct (Qltb b s0); by apply IH.
Qed.

Lemma masked_argmax_from_finds scores : forall maskrow best i p m,
  length scores = length maskrow ->
  maskrow !! p = Some m -> Qeq_bool m 1 = false ->
  is_Some (masked_argmax_from best i scores maskrow).
Proof.
  induction scores as [|s0 scores IH]; intros [|m0 maskrow] best i p m Hlen Hp Hm;
    simpl in *; try done.
  destruct p as [|p]; simpl in Hp.
  - injection Hp as ->. rewrite Hm.
    destruct best as [[bi b]|]; [destruct (Qltb b s0)|];
      by apply masked_argmax_from_Some.
  - destruct (Qeq_bool m0 1); [eapply IH; eauto|].
    destruct best as [[bi b]|]; [destruct (Qltb b s0)|]; eapply IH; eauto.
Qed.

Lemma select_infer_fresh scores maskrow :
  length scores = length maskrow ->
  count_ones maskrow < length maskrow ->
  exists m, maskrow !! select_infer scores maskrow = Some m /\
            Qeq_bool m 1 = false.
Proof.
  intros Hlen Hroom. destruct (count_ones_room _ Hroom) as (p & m & Hp & Hm).
  unfold select_infer.
  destruct (masked_argmax_from_finds scores maskrow None 0 p m Hlen Hp Hm)
    as [[j s] Hjs].
  rewrite Hjs. simpl.
  apply masked_argmax_from_origin in Hjs as [?|(_ & m' & Hm' & Hne)]; [done|].
  rewrite Nat.sub_0_r in Hm'. eauto.
Qed.

Section AdaptiveFacts.
Variable querier : Batch -> list (list Q) -> list (list Q).
Variable reveal_patch : Image -> Image -> nat -> nat -> Image.
Variable blank : Batch -> Batch.

Local Abbreviation astep := (adaptive_step querier reveal_patch).

Lemma adaptive_step_invariant images num_queries patch_size N P st t :
  (forall x m, mask_shape (length m) P (querier x m)) ->
  Forall (fun b => b <= P) num_queries ->
  adaptive_invariant N P num_queries t st.1 ->
  adaptive_invariant N P num_queries (S t)
    (astep images num_queries patch_size st t).1.
Proof.
  intros Hq Hb [[HN HP] Hinv]. unfold adaptive_step. cbn [fst].
  split.
  - split; [by rewrite length_imap|].
    apply Forall_forall. intros row' Hin.
    apply list_elem_of_lookup in Hin as [n Hn].
    apply list_lookup_imap_Some in Hn as (row & Hrow & ->).
    pose proof (Forall_lookup_1 _ _ _ _ HP Hrow) as Hl. simpl in Hl.
    case_bool_decide; [by rewrite length_insert|done].
  - intros n b Hnb. destruct (Hinv n b Hnb) as (row & Hrow & Hcount).
    pose proof (Forall_lookup_1 _ _ _ _ HP Hrow) as Hl. simpl in Hl.
    pose proof (Forall_lookup_1 _ _ _ _ Hb Hnb) as HbP. simpl in HbP.
    rewrite list_lookup_imap, Hrow. cbn [fmap option_fmap option_map].
    eexists. split; [done|].
    rewrite Hnb. change (default 0 (Some b)) with b.
    case_bool_decide as Hact.
    + destruct (Hq st.2 st.1) as [Hql Hqr].
      destruct (lookup_lt_is_Some_2 (querier st.2 st.1) n) as [srow Hsrow].
      { rewrite Hql. eapply lookup_lt_Some; eauto. }
      pose proof (Forall_lookup_1 _ _ _ _ Hqr Hsrow) as Hsl. simpl in Hsl.
      rewrite Hsrow. change (default [] (Some srow)) with srow.
      destruct (select_infer_fresh srow row) as (m & Hm & Hne); [lia|lia|].
      rewrite (count_ones_insert_fresh _ _ m) by done. lia.
    + lia.
Qed.

Lemma adaptive_steps_invariant images num_queries patch_size N P st0 t :
  (forall x m, mask_shape (length m) P (querier x m)) ->
  Forall (fun b => b <= P) num_queries ->
  adaptive_invariant N P num_queries 0 st0.1 ->
  adaptive_invariant N P num_queries t
    (foldl (astep images num_queries patch_size) st0 (seq 0 t)).1.
Proof.
  intros Hq Hb H0. induction t as [|t IH]; [done|].
  rewrite seq_S, foldl_app. simpl.
  by apply (adaptive_step_invariant images num_queries patch_size).
Qed.

Lemma adaptive_sampling_exact images num_queries patch_size P :
  (forall x m, mask_shape (length m) P (querier x m)) ->
  Forall (fun b => b <= P) num_queries ->
  length num_queries <= length images ->
  let m := (adaptive_sampling querier reveal_patch blank images num_queries
              patch_size P).1 in
  mask_shape (length images) P m /\
  forall n b, num_queries !! n = Some b ->
    exists row, m !! n = Some row /\ count_ones row = b.
Proof.
  intros Hq Hb Hlen. unfold adaptive_sampling. cbv zeta.
  destruct (adaptive_steps_invariant images num_queries patch_size
              (length images) P (zeros (length images) P, blank images)
              (max_list num_queries) Hq Hb) as [Hs Hinv].
  { split; [apply mask_shape_zeros|]. intros n b Hnb. simpl.
    exists (replicate P 0%Q). split.
    - unfold zeros. apply lookup_replicate_2.
      apply lookup_lt_Some in Hnb. lia.
    - by rewrite count_ones_replicate_zero. }
  split; [done|]. intros n b Hnb.
  destruct (Hinv n b Hnb) as (row & Hrow & Hcount).
  exists row. split; [done|]. rewrite Hcount.
  assert (b <= max_list num_queries); [|lia].
  apply max_list_elem_of_le, list_elem_of_lookup. eauto.
Qed.

Variable tape : nat -> nat.
Variable get_patch_mask : list (list Q) -> Batch -> nat -> Batch.


End AdaptiveFacts.

(** * Concrete runs *)

Lemma demo_querier_shaped : querier_shaped demo_querier.
Proof.
  intros x m. unfold demo_querier. split; [by rewrite length_map|].
  apply Forall_fmap, Forall_forall. intros row _.
  unfold compose. by rewrite length_map, length_seq.
Qed.

Lemma demo_querier_rows x m : length (demo_querier x m) = length m.
Proof. unfold demo_querier. by rewrite length_map. Qed.


Lemma mask_monotone_witness :
  exists st0 st2,
    state_before demo_classifier demo_querier demo_update demo_images 0 = Some st0 /\
    state_before demo_classifier demo_querier demo_update demo_images 2 = Some st2 /\
    mask_grows (mask st0) (mask st2).
Proof.
  eexists. eexists.
  split; [reflexivity|]. split; [vm_compute; reflexivity|].
  apply (mask_monotone demo_classifier demo_querier demo_update demo_images 0 2).
  - lia.
  - reflexivity.
  - vm_compute; reflexivity.
Defined.

Lemma queries_needed_in_bounds_witness :
  exists e,
    eval_batch demo_classifier demo_querier demo_update demo_softmax demo_std
      3 2 demo_batch = Some e /\
    Forall (fun q => 1 <= q <= 3) (env_queries_needed e) /\
    (forall n q, env_queries_needed e !! n = Some q ->
       exists steps, env_logits e !! n = Some steps /\
         length steps = 3 /\
         is_Some (steps !! (q - 1)) /\
         wrap_index (length steps) (Z.of_nat q - 1) = Some (q - 1)).
Proof.
  eexists. split; [vm_compute; reflexivity|].
  apply (queries_needed_in_bounds demo_classifier demo_querier demo_update
           demo_softmax demo_std 3 2 demo_batch).
  vm_compute; reflexivity.
Defined.


Lemma rollout_runs_all_steps_witness :
  querier_shaped demo_querier /\
  is_Some (eval_loop demo_classifier demo_querier demo_update demo_images 3
             (rollout_init demo_images)).
Proof.
  split; [exact demo_querier_shaped|].
  exact (proj2 (rollout_runs_all_steps demo_classifier demo_querier demo_update
                  demo_images 3) demo_querier_shaped).
Defined.

Lemma logits_precede_reveal_witness :
  exists st,
    (forall x m, length (demo_querier x m) = length m) /\
    eval_loop demo_classifier demo_querier demo_update demo_images 3
      (rollout_init demo_images) = Some st /\
    logits st !! 0 = Some (demo_classifier (zeros_like demo_images)) /\
    exists st_l,
      state_before demo_classifier demo_querier demo_update demo_images (3 - 1)
        = Some st_l /\
      label_logits st = Some (demo_classifier (test_inputs st_l)) /\
      revealed_at_most (3 - 1) (mask st_l).
Proof.
  eexists. split; [exact demo_querier_rows|].
  split; [vm_compute; reflexivity|].
  apply (logits_precede_reveal demo_classifier demo_querier demo_update
           demo_images 3).
  - exact demo_querier_rows.
  - vm_compute; reflexivity.
  - lia.
Defined.



(** * Further properties of the driver *)

(** *** The data transform *)

Lemma to_tensor_below_half p : (to_tensor p < 1 # 2)%Q <-> (p <= 127)%Z.
Proof.
  unfold to_tensor, Qlt, Qdiv, Qmult, Qinv, inject_Z. simpl. lia.
Qed.

Lemma transform_cases p :
  transform p = (if (p <=? 127)%Z then (-1)%Q else 1%Q).
Proof.
  unfold transform, binarize.
  destruct (Qltb _ _) eqn:E.
  - apply Qltb_lt, to_tensor_below_half in E.
    by rewrite (proj2 (Z.leb_le _ _) E).
  - apply Qltb_ge in E.
    destruct (p <=? 127)%Z eqn:E'; [|done].
    apply Z.leb_le, to_tensor_below_half in E'.
    exfalso. eapply Qlt_not_le; eauto.
Qed.

(** X1. The transform sends a grey level to -1 when it is at most 127 and
    to 1 otherwise, so every pixel of a transformed image is -1 or 1;
    binarising twice changes nothing; and the blank test inputs are 0
    everywhere, a value no transformed pixel has. *)
Theorem transform_binary (p : Z) (x : Q) (img : list (list (list Z)))
    (batch : Batch) :
  transform p = (if (p <=? 127)%Z then (-1)%Q else 1%Q) /\
  binarize (binarize x) = binarize x /\
  Forall (Forall (Forall (fun v => v = (-1)%Q \/ v = 1%Q))) (transform_image img) /\
  Forall (Forall (Forall (Forall (fun v => v = 0%Q)))) (zeros_like batch).
Proof.
  split; [apply transform_cases|]. split; [|split].
  - unfold binarize. destruct (Qltb x (1 # 2)); reflexivity.
  - unfold transform_image.
    do 3 (apply Forall_fmap, Forall_forall; intros ? _; unfold compose).
    rewrite transform_cases. destruct (_ <=? _)%Z; auto.
  - unfold zeros_like.
    do 4 (apply Forall_fmap, Forall_forall; intros ? _; unfold compose).
    done.
Qed.

(** *** Checkpoint and evaluation epochs *)

Lemma is_eval_epoch_spec epochs e :
  e < epochs ->
  is_eval_epoch epochs e = true <-> e mod 10 = 0 \/ e = epochs - 1.
Proof.
  intros He. unfold is_eval_epoch.
  rewrite orb_true_iff, Nat.eqb_eq, Z.eqb_eq. split; intros [H|H]; auto; lia.
Qed.

Lemma filter_ext_elem {A} (P1 P2 : A -> Prop)
    `{!forall x, Decision (P1 x), !forall x, Decision (P2 x)} (l : list A) :
  (forall x, x ∈ l -> P1 x <-> P2 x) -> filter P1 l = filter P2 l.
Proof.
  induction l as [|x l IH]; intros Hext; [done|].
  rewrite !filter_cons, IH by (intros y Hy; apply Hext; by right).
  pose proof (Hext x ltac:(by left)) as Hx.
  destruct (decide (P1 x)), (decide (P2 x)); tauto.
Qed.

Lemma multiples_below m :
  length (filter (fun e => e mod 10 = 0) (seq 0 m)) = (m + 9) / 10.
Proof.
  induction m as [|m IH]; [done|].
  rewrite seq_S, filter_app, length_app, IH. change (0 + m) with m.
  rewrite filter_cons, filter_nil.
  pose proof (Nat.div_mod_eq m 10) as Hm.
  pose proof (Nat.mod_upper_bound m 10 ltac:(lia)) as Hr.
  set (q := m / 10) in *. set (r := m mod 10) in *.
  replace (S m + 9) with (r + (q + 1) * 10) by lia.
  replace (m + 9) with ((r + 9) + q * 10) by lia.
  rewrite !Nat.div_add by lia.
  fold r. case_decide as Hd; simpl length.
  - rewrite Hd. simpl. lia.
  - rewrite (Nat.div_small r 10) by lia.
    assert ((r + 9) / 10 = 1) as ->; [|lia].
    replace (r + 9) with ((r - 1) + 1 * 10) by lia.
    rewrite Nat.div_add by lia. rewrite Nat.div_small by lia. done.
Qed.

(** X2. The epochs that save a checkpoint and evaluate are those below
    [epochs] that are multiples of 10, and the last one. When there is an
    epoch at all, the first of them is epoch 0 and the last is
    [epochs - 1]; from any epoch the next evaluation is at most 9 epochs
    away; and there are [(epochs + 8) / 10 + 1] of them. *)
Theorem eval_epochs_spec (epochs : nat) :
  (forall e, e ∈ eval_epochs epochs <->
     e < epochs /\ (e mod 10 = 0 \/ e = epochs - 1)) /\
  (forall e, e < epochs ->
     exists e', e' ∈ eval_epochs epochs /\ e <= e' < e + 10) /\
  (0 < epochs ->
     head (eval_epochs epochs) = Some 0 /\
     last (eval_epochs epochs) = Some (epochs - 1) /\
     length (eval_epochs epochs) = (epochs + 8) / 10 + 1).
Proof.
  assert (forall e, e ∈ eval_epochs epochs <->
            e < epochs /\ (e mod 10 = 0 \/ e = epochs - 1)) as Hmem.
  { intros e. unfold eval_epochs. rewrite list_elem_of_filter, elem_of_seq.
    split.
    - intros [He Hlt]. split; [lia|]. apply is_eval_epoch_spec; [lia|done].
    - intros [Hlt He]. split; [|lia]. by apply is_eval_epoch_spec. }
  split; [done|]. split.
  - intros e He.
    pose proof (Nat.div_mod_eq e 10) as Hm.
    pose proof (Nat.mod_upper_bound e 10 ltac:(lia)) as Hr.
    destruct (decide (e mod 10 = 0)) as [H0|H0].
    { exists e. split; [|lia]. apply Hmem. auto. }
    destruct (decide (10 * (e / 10) + 10 < epochs)) as [Hnext|Hnext].
    + exists (10 * (e / 10) + 10). split; [|lia]. apply Hmem. split; [done|].
      left. replace (10 * (e / 10) + 10) with (0 + (e / 10 + 1) * 10) by lia.
      by rewrite Nat.Div0.mod_add.
    + exists (epochs - 1). split; [|lia]. apply Hmem. split; [lia|auto].
  - intros Hpos. destruct epochs as [|n]; [lia|].
    unfold eval_epochs. split; [|split].
    + simpl seq. rewrite filter_cons. simpl. done.
    + rewrite seq_S, filter_app. change (0 + n) with n.
      rewrite filter_cons, filter_nil.
      rewrite decide_True by (apply is_eval_epoch_spec; [lia|right; lia]).
      rewrite last_snoc. f_equal. lia.
    + rewrite seq_S, filter_app, length_app. change (0 + n) with n.
      rewrite filter_cons, filter_nil.
      rewrite decide_True by (apply is_eval_epoch_spec; [lia|right; lia]).
      simpl length.
      rewrite (filter_ext_elem _ (fun e => e mod 10 = 0)).
      * rewrite multiples_below. replace (S n + 8) with (n + 9) by lia. lia.
      * intros e He. apply elem_of_seq in He.
        rewrite is_eval_epoch_spec by lia. split; [|auto].
        intros [H|H]; [done|lia].
Qed.

(** *** More on the temperature schedule *)

Lemma linspace_entry a b n i v :
  linspace a b n !! i = Some v ->
  i < n /\ (v == interpolate a b n i)%Q.
Proof.
  intros H. pose proof (lookup_lt_Some _ _ _ H) as Hi.
  rewrite linspace_length in Hi. split; [done|].
  destruct (decide (n = 1)) as [->|Hn].
  - replace i with 0 in * by lia. rewrite linspace_single in H.
    injection H as <-. unfold interpolate, Qnat. simpl. ring.
  - destruct (linspace_lookup a b n i ltac:(lia) Hi) as (v' & Hv' & Heq & _).
    rewrite H in Hv'. by injection Hv' as <-.
Qed.

Lemma train_forward_entries a b epochs n_batches q fws :
  train a b epochs n_batches = Some (q, fws) ->
  Forall (fun fw => fw_epoch fw < epochs /\
            (fw_tau fw == interpolate a b epochs (fw_epoch fw))%Q) fws.
Proof.
  unfold train. intros H.
  destruct (train_epochs_spec (linspace a b epochs) n_batches
              (seq 0 epochs) {| q_tau := a |})
    as (q' & fws' & Htrain & _ & Htaus).
  { apply Forall_forall. intros e He. apply elem_of_seq in He.
    rewrite linspace_length. lia. }
  rewrite H in Htrain. injection Htrain as <- <-.
  eapply Forall_impl; [exact Htaus|]. intros fw Hfw. simpl in Hfw.
  by apply linspace_entry.
Qed.

Lemma interpolate_between a b n i :
  i < n ->
  ((a <= b -> a <= interpolate a b n i <= b) /\
   (b <= a -> b <= interpolate a b n i <= a))%Q.
Proof.
  intros Hi. unfold interpolate.
  destruct (decide (n = 1)) as [->|Hn].
  - replace i with 0 by lia. unfold Qnat. simpl.
    assert (a + 0 * ((b - a) / 0) == a)%Q as -> by ring.
    split; intros; split; lra.
  - assert (0 < Qnat (n - 1))%Q as Hpos by (apply Qnat_pos; lia).
    assert (0 <= Qnat i)%Q as Hi0.
    { change 0%Q with (Qnat 0). apply Qnat_le. lia. }
    assert (Qnat i <= Qnat (n - 1))%Q as Hi1 by (apply Qnat_le; lia).
    set (d := Qnat (n - 1)) in *. set (x := Qnat i) in *.
    assert (x * ((b - a) / d) == (x / d) * (b - a))%Q as ->
      by (field; lra).
    assert (0 <= x / d)%Q as Hs0 by (apply Qle_shift_div_l; lra).
    assert (x / d <= 1)%Q as Hs1 by (apply Qle_shift_div_r; lra).
    set (s := (x / d)%Q) in *. split; intros Hab; split; nra.
Qed.

(** X3. Every training step runs at a temperature between [tau_start]
    and [tau_end], whichever way the schedule goes; in particular the
    temperature is positive throughout when both ends are. *)
Theorem temperature_within_bounds (tau_start tau_end : Q)
    (epochs n_batches : nat) q fws :
  train tau_start tau_end epochs n_batches = Some (q, fws) ->
  Forall (fun fw =>
    ((tau_start <= tau_end -> tau_start <= fw_tau fw <= tau_end) /\
     (tau_end <= tau_start -> tau_end <= fw_tau fw <= tau_start) /\
     (0 < tau_start -> 0 < tau_end -> 0 < fw_tau fw))%Q) fws.
Proof.
  intros H. apply train_forward_entries in H.
  eapply Forall_impl; [exact H|]. intros fw [Hlt Heq]. simpl.
  destruct (interpolate_between tau_start tau_end epochs (fw_epoch fw) Hlt)
    as [Hup Hdown].
  rewrite Heq. split; [done|]. split; [done|]. intros H0 H1.
  destruct (Qlt_le_dec tau_end tau_start) as [Hlt'|Hle].
  - apply Qlt_le_weak in Hlt'. specialize (Hdown Hlt'). lra.
  - specialize (Hup Hle). lra.
Qed.

Lemma train_batches_final epoch tau q batches :
  (train_batches epoch tau q batches).1 =
    match batches with [] => q | _ => {| q_tau := tau |} end.
Proof.
  revert q. induction batches as [|b batches IH]; intros q; [done|].
  cbn [train_batches train_batch].
  specialize (IH (update_tau q tau)).
  destruct (train_batches epoch tau (update_tau q tau) batches) as [q2 fws].
  simpl in *. rewrite IH. by destruct batches.
Qed.

Lemma train_epochs_final tau_vals n_batches epochs : forall q q' fws,
  train_epochs tau_vals n_batches q epochs = Some (q', fws) ->
  (n_batches = 0 -> q' = q /\ fws = []) /\
  (0 < n_batches ->
   match last epochs with
   | None => q' = q
   | Some e => tau_vals !! e = Some (q_tau q')
   end).
Proof.
  induction epochs as [|e epochs IH]; intros q q' fws H; simpl in H.
  - injection H as <- <-. done.
  - apply bind_Some in H as (tau & Htau & H).
    pose proof (train_batches_final e tau q (seq 0 n_batches)) as Hfin.
    pose proof (train_batches_spec e tau q (seq 0 n_batches)) as Hfws.
    destruct (train_batches e tau q (seq 0 n_batches)) as [q1 fws1].
    simpl in Hfin, Hfws.
    apply bind_Some in H as ([q2 fws2] & Hrest & H). injection H as <- <-.
    destruct (IH _ _ _ Hrest) as [IH0 IH1]. split.
    + intros ->. destruct (IH0 eq_refl) as [-> ->]. simpl in *.
      by subst.
    + intros Hpos. specialize (IH1 Hpos).
      destruct epochs as [|e' epochs'].
      * simpl in *. subst q2. rewrite Hfin.
        destruct n_batches; [lia|]. simpl. done.
      * change (last (e :: e' :: epochs')) with (last (e' :: epochs')).
        destruct (last (e' :: epochs')) eqn:El; [exact IH1|].
        by apply last_None in El.
Qed.

(** X5. After training the querier holds the temperature of the last
    epoch, which is [tau_end] when there are at least two epochs; when
    there is no training batch or no epoch, [update_tau] is never called
    and the querier keeps the [tau_start] it was built with. *)
Theorem querier_tau_after_training (tau_start tau_end : Q)
    (epochs n_batches : nat) q fws :
  train tau_start tau_end epochs n_batches = Some (q, fws) ->
  (n_batches = 0 \/ epochs = 0 -> q_tau q = tau_start /\ fws = []) /\
  (0 < n_batches -> 0 < epochs ->
     linspace tau_start tau_end epochs !! (epochs - 1) = Some (q_tau q)) /\
  (0 < n_batches -> 2 <= epochs -> q_tau q = tau_end).
Proof.
  unfold train. intros H.
  destruct (train_epochs_final _ _ _ _ _ _ H) as [H0 H1].
  assert (0 < n_batches -> 0 < epochs ->
          linspace tau_start tau_end epochs !! (epochs - 1) = Some (q_tau q))
    as Hlast.
  { intros Hn He. specialize (H1 Hn).
    destruct epochs as [|k]; [lia|]. rewrite seq_S, last_snoc in H1.
    simpl in H1. by replace (S k - 1) with k by lia. }
  split; [|split; [done|]].
  - intros [->| ->].
    + by destruct (H0 eq_refl) as [-> ->].
    + simpl in H. by injection H as <- <-.
  - intros Hn He. specialize (Hlast Hn ltac:(lia)).
    destruct (linspace_lookup tau_start tau_end epochs (epochs - 1) He
                ltac:(lia)) as (v & Hv & _ & Hb).
    rewrite Hlast in Hv. injection Hv as ->. by apply Hb.
Qed.

(** *** More on the mask of a rollout *)

Lemma set_entry_entry m nj m' n p :
  set_entry m nj = Some m' ->
  entry m' n p = if decide (n = nj.1 /\ p = nj.2) then Some 1%Q else entry m n p.
Proof.
  unfold set_entry. destruct nj as [n0 j0]. simpl.
  destruct (m !! n0) as [row|] eqn:Hrow; simpl; [|done].
  case_decide as Hj; [|done]. intros [= <-].
  by apply entry_insert_row.
Qed.

Lemma set_entries_ones ps : forall m m' n p,
  set_entries m ps = Some m' ->
  entry m' n p = Some 1%Q <-> entry m n p = Some 1%Q \/ (n, p) ∈ ps.
Proof.
  induction ps as [|[n0 j0] ps IH]; intros m m' n p H; simpl in H.
  - injection H as <-. split; [auto|]. intros [?|Hin]; [done|].
    by apply elem_of_nil in Hin.
  - apply bind_Some in H as (m1 & H1 & H).
    rewrite (IH _ _ n p H), (set_entry_entry _ _ _ n p H1). simpl.
    rewrite elem_of_cons. case_decide as Hd.
    + destruct Hd as [-> ->]. split; auto.
    + split; [intros [?|?]; auto|].
      intros [?|[[= -> ->]|?]]; auto. by destruct Hd.
Qed.

Lemma set_entries_in_range N P ps : forall m m',
  mask_shape N P m -> set_entries m ps = Some m' ->
  Forall (fun nj : nat * nat => nj.1 < N /\ nj.2 < P) ps.
Proof.
  induction ps as [|[n0 j0] ps IH]; intros m m' Hs H; simpl in H; [constructor|].
  apply bind_Some in H as (m1 & H1 & H).
  constructor; [|eapply IH; [eapply set_entry_shape|]; eauto].
  unfold set_entry in H1. simpl in *.
  destruct (m !! n0) as [row|] eqn:Hrow; simpl in H1; [|done].
  case_decide as Hj; [|done]. destruct Hs as [HN HP].
  pose proof (Forall_lookup_1 _ _ _ _ HP Hrow) as Hl. simpl in Hl.
  apply lookup_lt_Some in Hrow. lia.
Qed.

Lemma set_entries_row ps : forall m m' n j row,
  NoDup ps.*1 -> set_entries m ps = Some m' ->
  (n, j) ∈ ps -> m !! n = Some row ->
  m' !! n = Some (<[j := 1%Q]> row).
Proof.
  induction ps as [|[n0 j0] ps IH]; intros m m' n j row Hnd H Hin Hrow.
  { by apply elem_of_nil in Hin. }
  simpl in H. apply bind_Some in H as (m1 & H1 & H).
  simpl in Hnd. apply NoDup_cons in Hnd as [Hfresh Hnd].
  apply elem_of_cons in Hin as [[= -> ->]|Hin].
  - assert (m1 !! n0 = Some (<[j0 := 1%Q]> row)) as Hm1.
    { unfold set_entry in H1. simpl in H1. rewrite Hrow in H1. simpl in H1.
      case_decide; [|done]. injection H1 as <-.
      apply list_lookup_insert_eq. eapply lookup_lt_Some; eauto. }
    destruct (lookup_lt_is_Some_2 m' n0) as [r' Hr'].
    { assert (length m' = length m1) as ->.
      { clear -H. revert m1 H. induction ps as [|p ps IHp]; intros m1 H;
          simpl in H; [by injection H as <-|].
        apply bind_Some in H as (m2 & H2 & H). rewrite (IHp _ H).
        unfold set_entry in H2. destruct (m1 !! p.1); simpl in H2; [|done].
        case_decide; [|done]. injection H2 as <-. by rewrite length_insert. }
      eapply lookup_lt_Some; eauto. }
    destruct (set_entries_count _ _ _ _ _ Hnd H Hr') as (r & Hr & Hsame & _).
    rewrite Hr', (Hsame Hfresh). congruence.
  - assert (n <> n0) as Hne.
    { intros ->. apply Hfresh. apply list_elem_of_fmap. by exists (n0, j). }
    eapply IH; eauto.
    unfold set_entry in H1. simpl in H1.
    destruct (m !! n0) as [row0|]; simpl in H1; [|done].
    case_decide; [|done]. injection H1 as <-.
    by rewrite list_lookup_insert_ne.
Qed.

Lemma zip_seq_elem (idx : list nat) n p :
  (n, p) ∈ zip (seq 0 (length idx)) idx <-> idx !! n = Some p.
Proof.
  rewrite list_elem_of_lookup. split.
  - intros [i Hi]. apply lookup_zip_with_Some in Hi
      as (n' & p' & [= <- <-] & Hn & Hp).
    apply lookup_seq in Hn as [-> _]. done.
  - intros Hp. exists n. apply lookup_zip_with_Some.
    exists n, p. split; [done|]. split; [|done].
    apply lookup_seq. split; [done|]. eapply lookup_lt_Some; eauto.
Qed.

Lemma argmax_dim1_lookup qv idx n p :
  argmax_dim1 qv = Some idx ->
  idx !! n = Some p <-> selected qv n p.
Proof.
  intros H. apply mapM_Some in H. unfold selected. split.
  - intros Hp. destruct (Forall2_lookup_r _ _ _ _ _ H Hp) as (row & Hrow & Ha).
    eauto.
  - intros (row & Hrow & Ha).
    destruct (Forall2_lookup_l _ _ _ _ _ H Hrow) as (p' & Hp' & Ha').
    congruence.
Qed.

Lemma set_entries_id ps : forall m m',
  Forall (fun nj : nat * nat => entry m nj.1 nj.2 = Some 1%Q) ps ->
  set_entries m ps = Some m' -> m' = m.
Proof.
  induction ps as [|[n j] ps IH]; intros m m' Hall H; simpl in H.
  - by injection H as <-.
  - apply Forall_cons in Hall as [Hnj Hall]. simpl in Hnj.
    apply bind_Some in H as (m1 & H1 & H).
    assert (m1 = m) as ->; [|by apply IH].
    unfold set_entry in H1. unfold entry in Hnj. simpl in *.
    destruct (m !! n) as [row|] eqn:Hrow; simpl in *; [|done].
    case_decide; [|done]. injection H1 as <-.
    rewrite (list_insert_id row j 1%Q) by done.
    by apply list_insert_id.
Qed.

Section RolloutMore.
Variable classifier : Batch -> list (list Q).
Variable querier : Batch -> list (list Q) -> list (list Q).
Variable update_masked_image :
  Batch -> Batch -> list (list Q) -> nat -> Batch.
Variable test_images : Batch.

Local Abbreviation step := (eval_step classifier querier update_masked_image test_images).
Local Abbreviation loop := (eval_loop classifier querier update_masked_image test_images).
Local Abbreviation before := (state_before classifier querier update_masked_image test_images).
Local Abbreviation N := (batch_N test_images).

Lemma eval_step_inv st st' :
  step st = Some st' ->
  exists idx,
    argmax_dim1 (querier (test_inputs st) (mask st)) = Some idx /\
    index_put_ones N (mask st) idx = Some (mask st') /\
    queries st' = queries st ++ [querier (test_inputs st) (mask st)] /\
    logits st' = logits st ++ [classifier (test_inputs st)].
Proof.
  unfold eval_step. intros H.
  apply bind_Some in H as (idx & Hidx & H).
  apply bind_Some in H as (m' & Hm' & H). injection H as <-.
  exists idx. done.
Qed.

Lemma state_before_S t st' :
  before (S t) = Some st' <->
  exists st_t, before t = Some st_t /\ step st_t = Some st'.
Proof.
  unfold state_before. rewrite (eval_loop_S_r classifier querier), bind_Some.
  done.
Qed.

Lemma state_before_lengths t st_t :
  before t = Some st_t ->
  length (logits st_t) = t /\ length (queries st_t) = t.
Proof.
  intros H. apply eval_loop_lengths in H. simpl in H. lia.
Qed.

Lemma state_before_binary t st_t :
  before t = Some st_t -> binary_mask (mask st_t).
Proof.
  intros H. apply eval_loop_grows in H as [_ Hnew]. simpl in Hnew.
  apply Forall_forall. intros row Hrow.
  apply list_elem_of_lookup in Hrow as [n Hn].
  apply Forall_forall. intros v Hv.
  apply list_elem_of_lookup in Hv as [p Hp].
  destruct (Hnew n p v) as [->|H0]; [by unfold entry; rewrite Hn| by right |].
  left. unfold entry, zeros in H0.
  destruct (replicate N (replicate QUERY_ALL 0%Q) !! n) as [r|] eqn:Hr;
    simpl in H0; [|done].
  apply lookup_replicate in Hr as [-> _].
  by apply lookup_replicate in H0 as [-> _].
Qed.

Lemma eval_step_pairs st st' :
  mask_shape N QUERY_ALL (mask st) ->
  length (querier (test_inputs st) (mask st)) = N ->
  step st = Some st' ->
  exists idx,
    argmax_dim1 (querier (test_inputs st) (mask st)) = Some idx /\
    length idx = N /\
    set_entries (mask st) (zip (seq 0 (length idx)) idx) = Some (mask st').
Proof.
  intros Hs Hlen H. apply eval_step_inv in H as (idx & Hidx & Hput & _).
  exists idx. split; [done|].
  assert (length idx = N) as Hl.
  { apply mapM_Some, Forall2_length in Hidx. lia. }
  split; [done|]. unfold index_put_ones, broadcast2 in Hput.
  rewrite decide_True in Hput by (by rewrite length_seq).
  by rewrite Hl.
Qed.

Lemma mask_ones_selected t : forall st_t,
  (forall x m, length (querier x m) = length m) ->
  before t = Some st_t ->
  forall n p, entry (mask st_t) n p = Some 1%Q <->
    exists s qv, queries st_t !! s = Some qv /\ selected qv n p.
Proof.
  induction t as [|t IH]; intros st_t Hq H n p.
  - injection H as <-. simpl. split.
    + unfold entry, zeros. intros H.
      destruct (replicate N (replicate QUERY_ALL 0%Q) !! n) as [r|] eqn:Hr;
        simpl in H; [|done].
      apply lookup_replicate in Hr as [-> _].
      by apply lookup_replicate in H as [? _].
    + intros (s & qv & Hs & _). by rewrite lookup_nil in Hs.
  - apply state_before_S in H as (st0 & H0 & Hstep).
    pose proof (rollout_invariant _ _ _ _ _ _ H0) as Hshape.
    pose proof (state_before_lengths _ _ H0) as [_ Hql].
    destruct (eval_step_pairs _ _ Hshape ltac:(rewrite Hq; apply Hshape) Hstep)
      as (idx & Hidx & Hl & Hset).
    apply eval_step_inv in Hstep as (_ & _ & _ & Hqs & _).
    rewrite (set_entries_ones _ _ _ n p Hset), (IH _ Hq H0 n p).
    rewrite zip_seq_elem, (argmax_dim1_lookup _ _ _ _ Hidx), Hqs.
    split.
    + intros [(s & qv & Hs & Hsel)|Hsel].
      * exists s, qv. split; [|done]. by apply lookup_app_l_Some.
      * exists t, (querier (test_inputs st0) (mask st0)). split; [|done].
        rewrite lookup_app_r by lia. by rewrite Hql, Nat.sub_diag.
    + intros (s & qv & Hs & Hsel).
      apply lookup_app_Some in Hs as [Hs|[Hge Hs]]; [left; eauto|].
      right. rewrite Hql in Hs.
      destruct (s - t) as [|k]; simpl in Hs; [by injection Hs as <-|].
      by rewrite lookup_nil in Hs.
Qed.

(** X6. Throughout every rollout, whatever the networks return, the mask
    is a binary matrix of [N] rows and [QUERY_ALL] columns, and after [t]
    steps [t] logits and [t] query vectors are recorded. *)
Theorem rollout_mask_binary (t : nat) st_t :
  before t = Some st_t ->
  mask_shape N QUERY_ALL (mask st_t) /\
  binary_mask (mask st_t) /\
  length (logits st_t) = t /\
  length (queries st_t) = t.
Proof.
  intros H. split; [eapply rollout_invariant; eauto|].
  split; [eapply state_before_binary; eauto|].
  by apply state_before_lengths.
Qed.

(** X7. When the querier returns one row per sample, the mask after a
    rollout is the record of the selections: entry [(n, p)] is 1 exactly
    when patch [p] was the arg-max of sample [n] in one of the recorded
    query vectors. *)
Theorem rollout_mask_is_selections (max_queries_test : nat) st n p :
  (forall x m, length (querier x m) = length m) ->
  loop max_queries_test (rollout_init test_images) = Some st ->
  entry (mask st) n p = Some 1%Q <->
  exists s qv, queries st !! s = Some qv /\ selected qv n p.
Proof.
  intros Hq H. by apply (mask_ones_selected max_queries_test).
Qed.

Lemma distinct_selections_prefix qs qv n :
  distinct_selections (qs ++ [qv]) n -> distinct_selections qs n.
Proof.
  intros Hd t1 t2 qv1 qv2 p Hlt H1 H2. apply (Hd t1 t2); [done|..];
    by apply lookup_app_l_Some.
Qed.

Lemma rollout_exact_count t : forall st_t n,
  (forall x m, length (querier x m) = length m) ->
  before t = Some st_t -> n < N ->
  distinct_selections (queries st_t) n ->
  exists row, mask st_t !! n = Some row /\ count_ones row = t.
Proof.
  induction t as [|t IH]; intros st_t n Hq H Hn Hd.
  - injection H as <-. simpl. exists (replicate QUERY_ALL 0%Q). split.
    + by apply lookup_replicate_2.
    + apply count_ones_replicate_zero.
  - apply state_before_S in H as (st0 & H0 & Hstep).
    pose proof (rollout_invariant _ _ _ _ _ _ H0) as Hshape.
    pose proof (state_before_lengths _ _ H0) as [_ Hql].
    pose proof (state_before_binary _ _ H0) as Hbin.
    destruct (eval_step_pairs _ _ Hshape ltac:(rewrite Hq; apply Hshape) Hstep)
      as (idx & Hidx & Hl & Hset).
    apply eval_step_inv in Hstep as (_ & _ & _ & Hqs & _).
    rewrite Hqs in Hd.
    destruct (IH st0 n Hq H0 Hn (distinct_selections_prefix _ _ _ Hd))
      as (row & Hrow & Hcount).
    destruct (lookup_lt_is_Some_2 idx n ltac:(lia)) as [p Hp].
    pose proof (proj2 (zip_seq_elem idx n p) Hp) as Hin.
    assert (NoDup (zip (seq 0 (length idx)) idx).*1) as Hnd.
    { rewrite fst_zip by (rewrite length_seq; lia). apply NoDup_seq. }
    pose proof (set_entries_in_range _ _ _ _ _ Hshape Hset) as Hrange.
    rewrite Forall_forall in Hrange. destruct (Hrange _ Hin) as [_ HpP].
    simpl in HpP.
    exists (<[p := 1%Q]> row). split; [eapply set_entries_row; eauto|].
    destruct Hshape as [_ Hrows].
    pose proof (Forall_lookup_1 _ _ _ _ Hrows Hrow) as Hrl. simpl in Hrl.
    destruct (lookup_lt_is_Some_2 row p ltac:(lia)) as [v Hv].
    rewrite (count_ones_insert_fresh p row v); [by rewrite Hcount|done|].
    unfold binary_mask in Hbin.
    pose proof (Forall_lookup_1 _ _ _ _ Hbin Hrow) as Hb. simpl in Hb.
    pose proof (Forall_lookup_1 _ _ _ _ Hb Hv) as Hv01. simpl in Hv01.
    destruct Hv01 as [->| ->]; [done|]. exfalso.
    assert (entry (mask st0) n p = Some 1%Q) as He
      by (by unfold entry; rewrite Hrow).
    apply (mask_ones_selected t st0 Hq H0) in He as (s & qv & Hs & Hsel).
    pose proof (lookup_lt_Some _ _ _ Hs) as Hslt. rewrite Hql in Hslt.
    apply (Hd s t qv (querier (test_inputs st0) (mask st0)) p); [done|..].
    + by apply lookup_app_l_Some.
    + rewrite lookup_app_r by lia. by rewrite Hql, Nat.sub_diag.
    + done.
    + by apply (argmax_dim1_lookup _ _ _ _ Hidx).
Qed.

(** X8. When the querier returns one row per sample and the patches it
    selected for a sample are pairwise different, that sample has exactly
    [max_queries_test] revealed patches after the rollout. *)
Theorem rollout_reveals_all_distinct (max_queries_test : nat) st n :
  (forall x m, length (querier x m) = length m) ->
  loop max_queries_test (rollout_init test_images) = Some st ->
  n < N ->
  distinct_selections (queries st) n ->
  exists row, mask st !! n = Some row /\ count_ones row = max_queries_test.
Proof.
  intros Hq H Hn Hd. by apply (rollout_exact_count max_queries_test).
Qed.

(** X9. The loop does not guard against repeated selections: a step in
    which every selected patch is already revealed leaves the mask as it
    is, while its logits and its query vector are still recorded. *)
Theorem reselection_keeps_mask (t : nat) st_t st' :
  before t = Some st_t ->
  step st_t = Some st' ->
  length (querier (test_inputs st_t) (mask st_t)) = N ->
  (forall n p, selected (querier (test_inputs st_t) (mask st_t)) n p ->
     entry (mask st_t) n p = Some 1%Q) ->
  mask st' = mask st_t /\
  length (logits st') = S t /\ length (queries st') = S t.
Proof.
  intros H Hstep Hlen Hsel.
  pose proof (rollout_invariant _ _ _ _ _ _ H) as Hshape.
  pose proof (state_before_lengths _ _ H) as [Hll Hql].
  destruct (eval_step_pairs _ _ Hshape Hlen Hstep) as (idx & Hidx & Hl & Hset).
  apply eval_step_inv in Hstep as (_ & _ & _ & Hqs & Hls).
  split.
  - eapply set_entries_id; [|exact Hset].
    apply Forall_forall. intros [n p] Hin. simpl.
    apply Hsel, (argmax_dim1_lookup _ _ _ _ Hidx). by apply zip_seq_elem.
  - rewrite Hqs, Hls, !length_app. simpl. lia.
Qed.

(** X10. With one row of scores per sample, a step of the rollout goes
    through exactly when every row is non-empty and has its arg-max below
    [QUERY_ALL]; otherwise the arg-max or the mask assignment raises. *)
Theorem step_succeeds_iff (t : nat) st_t :
  before t = Some st_t ->
  length (querier (test_inputs st_t) (mask st_t)) = N ->
  is_Some (before (S t)) <->
  Forall (fun row => exists p, argmax row = Some p /\ p < QUERY_ALL)
         (querier (test_inputs st_t) (mask st_t)).
Proof.
  intros H Hlen.
  pose proof (rollout_invariant _ _ _ _ _ _ H) as Hshape.
  split.
  - intros [st' Hst']. apply state_before_S in Hst' as (st0 & H0 & Hstep).
    rewrite H in H0. injection H0 as <-.
    destruct (eval_step_pairs _ _ Hshape Hlen Hstep) as (idx & Hidx & Hl & Hset).
    pose proof (set_entries_in_range _ _ _ _ _ Hshape Hset) as Hrange.
    rewrite Forall_forall in Hrange.
    apply Forall_forall. intros row Hrow.
    apply list_elem_of_lookup in Hrow as [n Hn].
    pose proof Hidx as Hidx'. apply mapM_Some in Hidx'.
    destruct (Forall2_lookup_l _ _ _ _ _ Hidx' Hn) as (p & Hp & Ha).
    exists p. split; [done|].
    by destruct (Hrange (n, p) (proj2 (zip_seq_elem idx n p) Hp)).
  - intros Hall.
    assert (exists idx, argmax_dim1 (querier (test_inputs st_t) (mask st_t))
                          = Some idx /\ length idx = N /\
                        Forall (fun j => j < QUERY_ALL) idx)
      as (idx & Hidx & Hl & Hlt).
    { destruct (mapM argmax (querier (test_inputs st_t) (mask st_t)))
        as [idx|] eqn:E.
      - exists idx. split; [done|]. pose proof E as E'.
        apply mapM_Some in E'. split.
        + apply Forall2_length in E'. lia.
        + apply Forall_forall. intros j Hj.
          apply list_elem_of_lookup in Hj as [n Hn].
          destruct (Forall2_lookup_r _ _ _ _ _ E' Hn) as (row & Hrow & Ha).
          rewrite Forall_forall in Hall.
          destruct (Hall row) as (p & Hp & HpP);
            [apply list_elem_of_lookup; eauto|]. congruence.
      - apply mapM_None, Exists_exists in E as (row & Hin & Hnone).
        rewrite Forall_forall in Hall.
        destruct (Hall row Hin) as (p & Hp & _). congruence. }
    destruct (index_put_ones_shaped N QUERY_ALL (mask st_t) idx Hshape Hl Hlt)
      as (m' & Hm' & _).
    eexists. apply state_before_S. exists st_t. split; [done|].
    unfold eval_step. fold N. rewrite Hidx. simpl. rewrite Hm'. simpl. done.
Qed.

End RolloutMore.

(** *** The batches of the loader, continued *)

Lemma chunks_nil {A} fuel batch_size : chunks fuel batch_size (@nil A) = [].
Proof. by destruct fuel. Qed.

Lemma chunks_sizes {A} batch_size fuel : forall l : list A,
  batch_size <> 0 -> length l <= fuel ->
  Forall (fun c => length c <= batch_size) (chunks fuel batch_size l) /\
  (forall i c, chunks fuel batch_size l !! i = Some c ->
     S i < length (chunks fuel batch_size l) -> length c = batch_size).
Proof.
  intros l Hbs. revert l. induction fuel as [|fuel IH]; intros l Hlen.
  - simpl. split; [constructor|]. intros i c Hc. by rewrite lookup_nil in Hc.
  - destruct l as [|x l'].
    { simpl. split; [constructor|]. intros i c Hc. by rewrite lookup_nil in Hc. }
    change (chunks (S fuel) batch_size (x :: l')) with
      (take batch_size (x :: l')
         :: chunks fuel batch_size (drop batch_size (x :: l'))).
    remember (x :: l') as l eqn:El.
    assert (0 < length l) as Hpos by (subst l; simpl; lia).
    assert (length l <= S fuel) as Hlen' by (subst l; done).
    clear El Hlen x l'.
    assert (length (drop batch_size l) <= fuel) as Hdrop.
    { rewrite length_drop. lia. }
    destruct (IH (drop batch_size l) Hdrop) as (Hall & Hfull).
    split.
    + constructor; [|done]. rewrite length_take. lia.
    + intros [|i] c Hc Hi; simpl in Hc, Hi.
      * injection Hc as <-. rewrite length_take.
        destruct (decide (batch_size <= length l)) as [?|Hshort]; [lia|].
        rewrite drop_ge, chunks_nil in Hi by lia. simpl in Hi. lia.
      * apply (Hfull i c Hc). lia.
Qed.

(** X11. The loader cuts the dataset into consecutive batches: put back
    together, the images and the labels of the batches are those of the
    dataset in order; every batch has as many labels as images, at least
    one and at most [batch_size] of them, and every batch but the last
    has exactly [batch_size]; an empty dataset gives no batch, and a
    batch size of zero raises. *)
Theorem DataLoader_partition (testset : list (Image * Z)) (batch_size : nat) :
  (batch_size = 0 -> DataLoader testset batch_size = None) /\
  (batch_size <> 0 ->
   exists loader,
     DataLoader testset batch_size = Some loader /\
     concat (map fst loader) = map fst testset /\
     concat (map snd loader) = map snd testset /\
     Forall (fun b : Batch * list Z =>
               length b.1 = length b.2 /\ 0 < length b.1 <= batch_size) loader /\
     (forall i b, loader !! i = Some b -> S i < length loader ->
        length b.1 = batch_size) /\
     (testset = [] -> loader = [])).
Proof.
  unfold DataLoader. split.
  - intros ->. done.
  - intros Hbs. rewrite decide_False by done. eexists. split; [done|].
    destruct (chunks_spec batch_size (length testset) testset Hbs ltac:(lia))
      as (Hcat & Hne & _ & _).
    destruct (chunks_sizes batch_size (length testset) testset Hbs ltac:(lia))
      as (Hle & Hfull).
    set (cs := chunks (length testset) batch_size testset) in *.
    split; [|split; [|split; [|split]]].
    + rewrite map_map. simpl. rewrite <- concat_map. by rewrite Hcat.
    + rewrite map_map. simpl. rewrite <- concat_map. by rewrite Hcat.
    + apply Forall_fmap, Forall_forall. intros c Hc. simpl.
      rewrite !length_map. split; [done|].
      rewrite Forall_forall in Hne, Hle.
      specialize (Hne c Hc). specialize (Hle c Hc).
      destruct c; [done|]. simpl in *. lia.
    + intros i b Hb Hi. rewrite length_map in Hi.
      rewrite list_lookup_fmap in Hb.
      destruct (cs !! i) as [c|] eqn:Hc; [|done]. injection Hb as <-.
      simpl. rewrite length_map. by apply (Hfull i).
    + intros ->. done.
Qed.

(** *** More on the metrics of the test loop *)

Lemma omap_all_Some {A B} (f : A -> option B) (d : B) (l : list A) :
  Forall (fun x => is_Some (f x)) l ->
  omap f l = map (fun x => default d (f x)) l.
Proof.
  induction 1 as [|x l [y Hy] _ IH]; [done|].
  cbn [omap list_omap map]. rewrite Hy. simpl. by rewrite IH.
Qed.

Lemma permute_102_last ts t ll n row :
  torch_stack ts = Some t -> last ts = Some ll -> ll !! n = Some row ->
  exists steps, permute_102 t !! n = Some steps /\
    length steps = length ts /\
    steps !! (length ts - 1) = Some row.
Proof.
  intros Hst Hlast Hrow.
  apply torch_stack_inv in Hst as (-> & t0 & ts' & Hts & Hall).
  assert (length ll = length t0) as Hll.
  { rewrite Forall_forall in Hall. apply Hall.
    rewrite last_lookup in Hlast. apply list_elem_of_lookup. eauto. }
  assert (n < length t0) as Hn.
  { rewrite <- Hll. eapply lookup_lt_Some; eauto. }
  assert (Forall (fun m : list (list Q) => is_Some (m !! n)) ts) as Hsome.
  { eapply Forall_impl; [exact Hall|]. intros m Hm. simpl in Hm.
    apply lookup_lt_is_Some_2. lia. }
  assert (permute_102 ts
          = map (fun n => omap (fun m : list (list Q) => m !! n) ts)
                (seq 0 (length t0))) as -> by (by rewrite Hts).
  exists (omap (fun m : list (list Q) => m !! n) ts). split.
  - rewrite list_lookup_fmap, lookup_seq_lt by done. done.
  - split; [by apply omap_length_all|].
    rewrite (omap_all_Some (fun m : list (list Q) => m !! n) [] ts Hsome).
    rewrite list_lookup_fmap.
    rewrite last_lookup in Hlast.
    replace (length ts - 1) with (pred (length ts)) by lia.
    rewrite Hlast. simpl. by rewrite Hrow.
Qed.

Section EvaluationMore.
Variable classifier : Batch -> list (list Q).
Variable querier : Batch -> list (list Q) -> list (list Q).
Variable update_masked_image :
  Batch -> Batch -> list (list Q) -> nat -> Batch.
Variable softmax : list Q -> list Q.
Variable std : list Q -> Q.

Local Abbreviation batch_env :=
  (eval_batch classifier querier update_masked_image softmax std).
Local Abbreviation rollout :=
  (eval_loop classifier querier update_masked_image).
Local Abbreviation evaluate :=
  (evaluation classifier querier update_masked_image softmax std).
Local Abbreviation evaluate_set :=
  (evaluate_testset classifier querier update_masked_image softmax std).

Lemma label_logits_is_last test_images k : forall st st',
  rollout test_images k st = Some st' ->
  label_logits st = last (logits st) ->
  label_logits st' = last (logits st').
Proof.
  induction k as [|k IH]; simpl; intros st st' H Hinv.
  - by injection H as <-.
  - apply bind_Some in H as (st1 & H1 & H). eapply IH; [exact H|].
    apply eval_step_records in H1 as (-> & _ & -> & _).
    by rewrite last_snoc.
Qed.

(** X13. Edge cases of the evaluation. With [--max_queries_test 0] the
    batch body raises on every batch, so evaluating any batch raises even
    when metrics of an earlier evaluation are bound. With no batch at all
    the loop body never runs: the log repeats the metrics that were bound
    before, and raises when none were. A loader built with batch size 0
    raises. *)
Theorem evaluation_edge_cases (len_testset epoch : nat)
    (env : option BatchEnv) (b : Batch * list Z)
    (batches : list (Batch * list Z)) (max_queries_test : nat)
    (testset : list (Image * Z)) :
  batch_env 0 len_testset b = None /\
  evaluate 0 len_testset epoch env (b :: batches) = None /\
  evaluate max_queries_test len_testset epoch env [] =
    match env with
    | Some e => Some ({| test_epoch := epoch;
                         test_acc_max := acc_max e;
                         test_acc_ip := acc_ip e;
                         log_qry_need_avg := qry_need_avg e;
                         log_qry_need_std := qry_need_std e |}, e)
    | None => None
    end /\
  evaluate_set max_queries_test 0 epoch env testset = None.
Proof.
  assert (batch_env 0 len_testset b = None) as Hb by done.
  split; [done|]. split; [|split].
  - unfold evaluation. cbn [test_loop]. by rewrite Hb.
  - unfold evaluation. simpl. by destruct env.
  - done.
Qed.

(** X14. When no sample crosses the threshold before the last step, that
    is when every sample needs all [max_queries_test] queries, the
    early-stopping prediction is the prediction of the last step: the
    batch's [acc_ip] equals its [acc_max]. *)
Theorem acc_ip_equals_acc_max (max_queries_test len_testset : nat)
    (b : Batch * list Z) e :
  batch_env max_queries_test len_testset b = Some e ->
  Forall (fun q => q = max_queries_test) (env_queries_needed e) ->
  (exists st ll,
     rollout b.1 max_queries_test (rollout_init b.1) = Some st /\
     label_logits st = Some ll /\
     argmax_dim1 ll = Some (env_test_pred_ip e)) /\
  acc_ip e = acc_max e.
Proof.
  intros H Hall.
  pose proof (eval_batch_queries_needed _ _ _ _ _ _ _ _ _ H)
    as (Hpos & Hlen & Hsteps & _).
  apply eval_batch_inv in H
    as (st & ll & w & stacked & Hloop & Hll & Hw & Hst & _ & Hlg & Hqn
        & (pred & hits & Hp & Hh & Hacc) & (rows & hits_ip & Hr & Hpi & Hhi & Hai)
        & _).
  pose proof (label_logits_is_last _ _ _ _ Hloop eq_refl) as Hlast.
  rewrite Hll in Hlast. symmetry in Hlast.
  pose proof (eval_loop_lengths _ _ _ _ _ _ _ Hloop) as [HT _]. simpl in HT.
  assert (rows = ll) as ->.
  { apply mapM_Some in Hr. rewrite Hlg in Hlen.
    pose proof (permute_102_shape _ _ Hst) as (_ & Hrows & _).
    assert (length (default [] (head (logits st))) = length ll) as Hhl.
    { pose proof Hst as Hst'.
      apply torch_stack_inv in Hst' as (_ & t0 & ts' & Hts & Hsame).
      replace (head (logits st)) with (Some t0) by (by rewrite Hts).
      simpl. rewrite Forall_forall in Hsame. symmetry.
      apply Hsame. pose proof Hlast as Hlast'. rewrite last_lookup in Hlast'.
      apply list_elem_of_lookup. eauto. }
    apply list_eq_same_length with (length ll).
    - done.
    - apply Forall2_length in Hr. rewrite length_zip_with, length_seq in Hr.
      lia.
    - intros i x y Hi Hx Hy.
      destruct (Forall2_lookup_r _ _ _ _ _ Hr Hx) as ([n q] & Hnq & Hf).
      apply lookup_zip_with_Some in Hnq as (n' & q' & [= <- <-] & Hn & Hq).
      apply lookup_seq in Hn as [-> _]. simpl in Hf.
      pose proof (Forall_lookup_1 _ _ _ _ Hall Hq) as Hqm. simpl in Hqm.
      rewrite Hqm in Hf.
      destruct (permute_102_last _ _ _ _ _ Hst Hlast Hy)
        as (steps & Hs & Hsl & Hslast).
      rewrite Hs in Hf. simpl in Hf. rewrite Hsl, HT in Hf.
      unfold wrap_index in Hf. rewrite decide_True in Hf by lia. simpl in Hf.
      rewrite HT in Hslast.
      replace (Z.to_nat (Z.of_nat max_queries_test - 1))
        with (max_queries_test - 1) in Hf by lia.
      congruence. }
  rewrite Hp in Hpi. injection Hpi as Hpi. subst pred.
  rewrite Hh in Hhi. injection Hhi as <-.
  split; [|congruence].
  exists st, ll. done.
Qed.

Lemma eq_float_binary a labels hits :
  eq_float a labels = Some hits ->
  Forall (fun v => v = 0%Q \/ v = 1%Q) hits.
Proof.
  unfold eq_float. intros H. apply bind_Some in H as (ps & _ & H).
  injection H as <-. apply Forall_fmap, Forall_forall. intros p _. simpl.
  destruct (_ =? _)%Z; auto.
Qed.

Lemma sumQ_binary l :
  Forall (fun v => v = 0%Q \/ v = 1%Q) l ->
  (0 <= sumQ l <= Qnat (length l))%Q.
Proof.
  induction 1 as [|v l Hv _ IH]; simpl.
  - unfold Qnat. simpl. split; apply Qle_refl.
  - assert (Qnat (S (length l)) == Qnat (length l) + 1)%Q as ->.
    { unfold Qnat. rewrite Nat2Z.inj_succ, <- Z.add_1_r, inject_Z_plus. done. }
    destruct Hv as [-> | ->]; lra.
Qed.

Lemma mean_binary l :
  Forall (fun v => v = 0%Q \/ v = 1%Q) l -> (0 <= mean l <= 1)%Q.
Proof.
  intros H. apply sumQ_binary in H. unfold mean. fold (Qnat (length l)).
  destruct (decide (length l = 0)) as [Hl|Hl].
  - rewrite Hl in *. unfold Qnat, Qdiv in *. simpl in *.
    assert (sumQ l * / 0 == 0)%Q as -> by (unfold Qinv; simpl; ring).
    split; [apply Qle_refl|discriminate].
  - assert (0 < Qnat (length l))%Q by (apply Qnat_pos; lia).
    split.
    + apply Qle_shift_div_l; [done|]. lra.
    + apply Qle_shift_div_r; [done|]. lra.
Qed.

Lemma rollout_inputs_length test_images t : forall st_t,
  update_shaped update_masked_image ->
  state_before classifier querier update_masked_image test_images t = Some st_t ->
  length (test_inputs st_t) = length test_images.
Proof.
  induction t as [|t IH]; intros st_t Hu H.
  - injection H as <-. simpl. unfold zeros_like. by rewrite length_map.
  - pose proof (state_before_inputs _ _ _ _ _ _ H) as (st_p & Hp & ->).
    apply Hu. by apply IH.
Qed.

Lemma label_logits_source test_images k st :
  rollout test_images k (rollout_init test_images) = Some st -> 0 < k ->
  exists st_l,
    state_before classifier querier update_masked_image test_images (k - 1)
      = Some st_l /\
    label_logits st = Some (classifier (test_inputs st_l)).
Proof.
  intros H Hk.
  destruct (eval_loop_split classifier querier update_masked_image test_images
              k (k - 1) _ _ ltac:(lia) H) as (st_l & Hl & Hrest).
  exists st_l. split; [done|].
  replace (k - (k - 1)) with 1 in Hrest by lia. simpl in Hrest.
  apply bind_Some in Hrest as (st1 & Hstep & Hst1). injection Hst1 as <-.
  by apply eval_step_records in Hstep as (_ & _ & -> & _).
Qed.

Lemma eq_float_length a labels hits :
  length a = length labels -> eq_float a labels = Some hits ->
  length hits = length labels.
Proof.
  intros Hlen H. unfold eq_float, broadcast2 in H.
  rewrite decide_True in H by done. simpl in H. injection H as <-.
  rewrite length_map, length_zip_with. lia.
Qed.

Lemma sumQ_binary_zero l :
  Forall (fun v => v = 0%Q \/ v = 1%Q) l ->
  (sumQ l == 0)%Q <-> Forall (fun v => v = 0%Q) l.
Proof.
  induction 1 as [|v l Hv Hl IH]; simpl; [split; [constructor|reflexivity]|].
  pose proof (sumQ_binary l Hl) as [H0 _].
  destruct Hv as [-> | ->]; split.
  - intros H. constructor; [done|]. apply IH. lra.
  - intros H. apply Forall_cons in H as [_ H]. apply IH in H. lra.
  - intros H. lra.
  - intros H. by apply Forall_cons in H as [? _].
Qed.

Lemma sumQ_binary_full l :
  Forall (fun v => v = 0%Q \/ v = 1%Q) l ->
  (sumQ l == Qnat (length l))%Q <-> Forall (fun v => v = 1%Q) l.
Proof.
  induction 1 as [|v l Hv Hl IH]; simpl length; simpl sumQ;
    [split; [constructor|reflexivity]|].
  pose proof (sumQ_binary l Hl) as [_ H1].
  assert (Qnat (S (length l)) == Qnat (length l) + 1)%Q as Hs.
  { unfold Qnat. rewrite Nat2Z.inj_succ, <- Z.add_1_r, inject_Z_plus. done. }
  rewrite Hs. destruct Hv as [-> | ->]; split.
  - intros H. lra.
  - intros H. by apply Forall_cons in H as [? _].
  - intros H. constructor; [done|]. apply IH. lra.
  - intros H. apply Forall_cons in H as [_ H]. apply IH in H. lra.
Qed.

Lemma weighted_mean_extremes l (w : Q) :
  Forall (fun v => v = 0%Q \/ v = 1%Q) l -> l <> [] -> (0 < w)%Q ->
  ((mean l * w == 0)%Q <-> Forall (fun v => v = 0%Q) l) /\
  ((mean l * w == w)%Q <-> Forall (fun v => v = 1%Q) l).
Proof.
  intros Hb Hne Hw.
  assert (0 < Qnat (length l))%Q as Hn
    by (apply Qnat_pos; destruct l; [done|simpl; lia]).
  rewrite <- (sumQ_binary_zero l Hb), <- (sumQ_binary_full l Hb).
  unfold mean. fold (Qnat (length l)).
  set (n := Qnat (length l)) in *. set (t := sumQ l).
  assert (t / n * n == t)%Q as Hdiv by (field; lra).
  split; split; intros H.
  - assert (t / n == 0)%Q as H0 by nra. rewrite H0 in Hdiv. lra.
  - rewrite H. unfold Qdiv. ring.
  - assert (t / n == 1)%Q as H1 by nra. rewrite H1 in Hdiv. lra.
  - rewrite H. field. lra.
Qed.

(** X15. For a non-empty test set, a classifier that returns one row per
    sample and an image update that keeps the batch size, each logged
    accuracy is computed from the hit vector of the final batch [b]
    alone, one 0 or 1 per sample of [b]: it lies between 0 and
    [N / len(testset)] with [N] the size of [b], hence never exceeds
    [batch_size / len(testset)]; it is 0 exactly when every prediction of
    [b] misses its label and [N / len(testset)] exactly when every one
    hits. *)
Theorem logged_accuracy_bounds
    (max_queries_test batch_size epoch : nat)
    (env0 : option BatchEnv) (testset : list (Image * Z)) entry e :
  testset <> [] ->
  classifier_shaped classifier ->
  update_shaped update_masked_image ->
  evaluate_set max_queries_test batch_size epoch env0 testset = Some (entry, e) ->
  exists bs b hits_max hits_ip,
    DataLoader testset batch_size = Some (bs ++ [b]) /\
    batch_hits_max classifier querier update_masked_image max_queries_test b
      = Some hits_max /\
    batch_hits_ip classifier querier update_masked_image softmax
      max_queries_test b = Some hits_ip /\
    length hits_max = length b.1 /\ length hits_ip = length b.1 /\
    0 < length b.1 <= batch_size /\
    let w := (Qnat (length b.1) / Qnat (length testset))%Q in
    (0 <= test_acc_max entry <= w)%Q /\
    (0 <= test_acc_ip entry <= w)%Q /\
    (w <= Qnat batch_size / Qnat (length testset))%Q /\
    ((test_acc_max entry == 0)%Q <-> Forall (fun v => v = 0%Q) hits_max) /\
    ((test_acc_max entry == w)%Q <-> Forall (fun v => v = 1%Q) hits_max) /\
    ((test_acc_ip entry == 0)%Q <-> Forall (fun v => v = 0%Q) hits_ip) /\
    ((test_acc_ip entry == w)%Q <-> Forall (fun v => v = 1%Q) hits_ip).
Proof.
  intros Hne Hc Hu H. unfold evaluate_testset in H.
  apply bind_Some in H as (loader & Hloader & H).
  destruct (DataLoader_partition testset batch_size) as [_ Hpart].
  assert (batch_size <> 0) as Hbs.
  { unfold DataLoader in Hloader. by case_decide. }
  destruct (Hpart Hbs) as (loader' & Hl' & _ & _ & Hsizes & _).
  rewrite Hloader in Hl'. injection Hl' as <-.
  destruct (DataLoader_batches _ _ _ Hloader Hne) as (bs & b & -> & _ & _).
  apply Forall_app in Hsizes as [_ Hb].
  apply Forall_cons in Hb as [[Hlab Hb] _].
  destruct (test_loop_keeps_last_batch _ _ _ _ _ _ _ _ _ _ _ _ _ H)
    as ((He & _ & -> & -> & _) & _).
  pose proof (eval_batch_queries_needed _ _ _ _ _ _ _ _ _ He) as (Hpos & _).
  assert (length testset <> 0) as Hlen by (by destruct testset).
  destruct (eval_batch_hits _ _ _ _ _ _ _ _ _ He)
    as (hits & hits_ip & Hhm & Hhi & Hacc).
  cbv zeta in Hacc. destruct Hacc as [-> ->].
  exists bs, b, hits, hits_ip.
  split; [done|]. split; [done|]. split; [done|].
  assert (length hits = length b.1 /\ Forall (fun v => v = 0%Q \/ v = 1%Q) hits)
    as [Hhl Hb01].
  { unfold batch_hits_max in Hhm.
    apply bind_Some in Hhm as (st & Hloop & Hhm).
    apply bind_Some in Hhm as (ll & Hll & Hhm).
    apply bind_Some in Hhm as (pred & Hp & Hh).
    split; [|by eapply eq_float_binary].
    destruct (label_logits_source _ _ _ Hloop Hpos) as (st_l & Hl & Hsrc).
    rewrite Hll in Hsrc. injection Hsrc as ->.
    assert (length pred = length b.2) as Hpl.
    { apply mapM_Some, Forall2_length in Hp. rewrite <- Hp, Hc.
      rewrite (rollout_inputs_length _ _ _ Hu Hl). lia. }
    rewrite (eq_float_length _ _ _ Hpl Hh). lia. }
  assert (length hits_ip = length b.1 /\
          Forall (fun v => v = 0%Q \/ v = 1%Q) hits_ip) as [Hil Hi01].
  { pose proof (env_queries_needed_length _ _ _ _ _ _ _ _ _ Hc He) as Hqlen.
    apply eval_batch_inv in He
      as (st & ll & w & stacked & Hloop & _ & _ & Hst & _ & _ & Hqn
          & _ & (rows & hits' & Hr & Hpi & Hhi' & _) & _).
    unfold batch_hits_ip in Hhi. cbv zeta in Hhi.
    rewrite Hloop in Hhi. cbn [mbind option_bind] in Hhi.
    rewrite Hst in Hhi. cbn [mbind option_bind] in Hhi.
    rewrite Hqn in Hhi. cbn [mbind option_bind] in Hhi.
    rewrite Hr in Hhi. cbn [mbind option_bind] in Hhi.
    rewrite Hpi in Hhi. cbn [mbind option_bind] in Hhi.
    split; [|by eapply eq_float_binary].
    assert (length (env_test_pred_ip e) = length b.2) as Hpl.
    { apply mapM_Some, Forall2_length in Hpi. rewrite <- Hpi.
      apply mapM_Some, Forall2_length in Hr. rewrite <- Hr.
      rewrite length_zip_with, length_seq. lia. }
    rewrite (eq_float_length _ _ _ Hpl Hhi). lia. }
  split; [done|]. split; [done|]. split; [lia|]. cbv zeta.
  pose proof (mean_binary _ Hb01) as Hm. pose proof (mean_binary _ Hi01) as Hmi.
  assert (0 < Qnat (length testset))%Q as Hlpos by (apply Qnat_pos; lia).
  assert (0 < Qnat (length b.1) / Qnat (length testset))%Q as Hw0.
  { apply Qlt_shift_div_l; [done|]. rewrite Qmult_0_l. apply Qnat_pos. lia. }
  assert (hits <> []) as Hn1 by (destruct hits; [simpl in Hhl; lia|done]).
  assert (hits_ip <> []) as Hn2 by (destruct hits_ip; [simpl in Hil; lia|done]).
  destruct (weighted_mean_extremes hits _ Hb01 Hn1 Hw0) as [Hz Hf].
  destruct (weighted_mean_extremes hits_ip _ Hi01 Hn2 Hw0) as [Hzi Hfi].
  set (w := (Qnat (length b.1) / Qnat (length testset))%Q) in *.
  split; [split; nra|]. split; [split; nra|].
  split; [|done].
  unfold w, Qdiv. apply Qmult_le_compat_r.
  - apply Qnat_le. lia.
  - apply Qlt_le_weak, Qinv_lt_0_compat. done.
Qed.

End EvaluationMore.

(** * Concrete runs, continued *)

Lemma temperature_within_bounds_witness :
  exists q fws,
    train 1 (2 # 10) 4 2 = Some (q, fws) /\
    Forall (fun fw =>
      ((1 <= 2 # 10 -> 1 <= fw_tau fw <= 2 # 10) /\
       (2 # 10 <= 1 -> 2 # 10 <= fw_tau fw <= 1) /\
       (0 < 1 -> 0 < 2 # 10 -> 0 < fw_tau fw))%Q) fws.
Proof.
  eexists. eexists. split; [vm_compute; reflexivity|].
  eapply (temperature_within_bounds 1 (2 # 10) 4 2).
  vm_compute; reflexivity.
Defined.

Lemma querier_tau_after_training_witness :
  exists q fws,
    train 1 (2 # 10) 4 2 = Some (q, fws) /\
    (0 < 2 -> 2 <= 4 -> q_tau q = 2 # 10).
Proof.
  eexists. eexists. split; [vm_compute; reflexivity|].
  refine (proj2 (proj2 (querier_tau_after_training 1 (2 # 10) 4 2 _ _ _))).
  vm_compute; reflexivity.
Defined.

Lemma rollout_mask_binary_witness :
  exists st,
    state_before demo_classifier demo_querier demo_update demo_images 2 = Some st /\
    mask_shape (batch_N demo_images) QUERY_ALL (mask st) /\
    binary_mask (mask st) /\
    length (logits st) = 2 /\
    length (queries st) = 2.
Proof.
  eexists. split; [vm_compute; reflexivity|].
  apply (rollout_mask_binary demo_classifier demo_querier demo_update
           demo_images 2).
  vm_compute; reflexivity.
Defined.

Lemma rollout_mask_is_selections_witness :
  exists st,
    (forall x m, length (demo_querier x m) = length m) /\
    eval_loop demo_classifier demo_querier demo_update demo_images 2
      (rollout_init demo_images) = Some st /\
    (entry (mask st) 0 1 = Some 1%Q <->
     exists s qv, queries st !! s = Some qv /\ selected qv 0 1).
Proof.
  eexists. split; [exact demo_querier_rows|].
  split; [vm_compute; reflexivity|].
  apply (rollout_mask_is_selections demo_classifier demo_querier demo_update
           demo_images 2).
  - exact demo_querier_rows.
  - vm_compute; reflexivity.
Defined.

Lemma rollout_reveals_all_distinct_witness :
  exists st,
    (forall x m, length (demo_querier x m) = length m) /\
    eval_loop demo_classifier demo_querier demo_update demo_images 2
      (rollout_init demo_images) = Some st /\
    0 < batch_N demo_images /\
    distinct_selections (queries st) 0 /\
    exists row, mask st !! 0 = Some row /\ count_ones row = 2.
Proof.
  eexists. split; [exact demo_querier_rows|].
  split; [vm_compute; reflexivity|].
  assert (0 < batch_N demo_images) as HN by (vm_compute; lia).
  split; [exact HN|].
  match goal with |- distinct_selections ?qs 0 /\ _ =>
    assert (distinct_selections qs 0) as Hd end.
  { intros t1 t2 qv1 qv2 p Hlt H1 H2 (r1 & Hr1 & Ha1) (r2 & Hr2 & Ha2).
    destruct t2 as [|[|t2]]; [lia| |by destruct t2].
    destruct t1 as [|t1]; [|lia].
    injection H1 as <-. injection H2 as <-.
    injection Hr1 as <-. injection Hr2 as <-.
    vm_compute in Ha1. vm_compute in Ha2. congruence. }
  split; [exact Hd|].
  apply (rollout_reveals_all_distinct demo_classifier demo_querier demo_update
           demo_images 2 _ 0).
  - exact demo_querier_rows.
  - vm_compute; reflexivity.
  - exact HN.
  - exact Hd.
Defined.

Lemma reselection_keeps_mask_witness :
  exists st_t st',
    state_before demo_classifier stuck_querier demo_update demo_images 1
      = Some st_t /\
    eval_step demo_classifier stuck_querier demo_update demo_images st_t
      = Some st' /\
    length (stuck_querier (test_inputs st_t) (mask st_t)) = batch_N demo_images /\
    (forall n p, selected (stuck_querier (test_inputs st_t) (mask st_t)) n p ->
       entry (mask st_t) n p = Some 1%Q) /\
    mask st' = mask st_t /\
    length (logits st') = 2 /\ length (queries st') = 2.
Proof.
  eexists. eexists. split; [vm_compute; reflexivity|].
  split; [vm_compute; reflexivity|].
  match goal with |- ?L /\ ?S /\ _ =>
    assert L as Hlen by (vm_compute; reflexivity);
    assert S as Hsel end.
  { intros n p (row & Hrow & Ha).
    destruct n as [|n]; [|by destruct n].
    injection Hrow as <-. vm_compute in Ha. injection Ha as <-.
    vm_compute. reflexivity. }
  split; [exact Hlen|]. split; [exact Hsel|].
  apply (reselection_keeps_mask demo_classifier stuck_querier demo_update
           demo_images 1).
  - vm_compute; reflexivity.
  - vm_compute; reflexivity.
  - exact Hlen.
  - exact Hsel.
Defined.

Lemma step_succeeds_iff_witness :
  exists st_t,
    state_before demo_classifier demo_querier demo_update demo_images 1
      = Some st_t /\
    length (demo_querier (test_inputs st_t) (mask st_t)) = batch_N demo_images /\
    (is_Some (state_before demo_classifier demo_querier demo_update demo_images 2)
     <-> Forall (fun row => exists p, argmax row = Some p /\ p < QUERY_ALL)
           (demo_querier (test_inputs st_t) (mask st_t))).
Proof.
  eexists. split; [vm_compute; reflexivity|].
  split; [vm_compute; reflexivity|].
  apply (step_succeeds_iff demo_classifier demo_querier demo_update
           demo_images 1).
  - vm_compute; reflexivity.
  - vm_compute; reflexivity.
Defined.

Lemma demo_classifier_shaped : classifier_shaped demo_classifier.
Proof. intros x. unfold demo_classifier. by rewrite length_map. Qed.

Lemma demo_classifier_rows x : x <> [] -> demo_classifier x <> [].
Proof. by destruct x. Qed.

Lemma acc_ip_equals_acc_max_witness :
  exists e,
    eval_batch undecided_classifier demo_querier demo_update demo_softmax
      demo_std 3 2 demo_batch = Some e /\
    env_queries_needed e = [3] /\
    Forall (fun q => q = 3) (env_queries_needed e) /\
    acc_ip e = acc_max e.
Proof.
  eexists. split; [vm_compute; reflexivity|]. split; [reflexivity|].
  match goal with |- ?A /\ _ =>
    assert A as Hall by (repeat constructor) end.
  split; [exact Hall|].
  refine (proj2 (acc_ip_equals_acc_max undecided_classifier demo_querier
                   demo_update demo_softmax demo_std 3 2 demo_batch _ _ Hall)).
  vm_compute; reflexivity.
Defined.

Lemma demo_update_shaped : update_shaped demo_update.
Proof. intros x full q patch_size _. done. Qed.

Lemma logged_accuracy_bounds_witness :
  exists entry e,
    demo_testset <> [] /\
    classifier_shaped demo_classifier /\
    update_shaped demo_update /\
    evaluate_testset demo_classifier demo_querier demo_update demo_softmax
      demo_std 3 2 7 None demo_testset = Some (entry, e) /\
    exists bs b hits_max,
      DataLoader demo_testset 2 = Some (bs ++ [b]) /\
      batch_hits_max demo_classifier demo_querier demo_update 3 b
        = Some hits_max /\
      let w := (Qnat (length b.1) / Qnat (length demo_testset))%Q in
      (0 <= test_acc_max entry <= w)%Q /\
      ((test_acc_max entry == w)%Q <-> Forall (fun v => v = 1%Q) hits_max).
Proof.
  assert (demo_testset <> []) as Hne by discriminate.
  eexists. eexists. split; [exact Hne|].
  split; [exact demo_classifier_shaped|]. split; [exact demo_update_shaped|].
  split; [vm_compute; reflexivity|].
  destruct (logged_accuracy_bounds demo_classifier demo_querier
              demo_update demo_softmax demo_std 3 2 7 None demo_testset _ _
              Hne demo_classifier_shaped demo_update_shaped
              ltac:(vm_compute; reflexivity))
    as (bs & b & hm & hi & Hl & Hhm & _ & _ & _ & _ & Hacc & _ & _ & _ & Hfull & _).
  exists bs, b, hm. split; [exact Hl|]. split; [exact Hhm|].
  split; [exact Hacc|exact Hfull].
Defined.
